(** * go-describe-repo: the repository scan of [main.go], embedded in Rocq

    The development follows [main.go]:
    - [readGitignore]   reads the root's [.gitignore] into a rule set;
    - [getRepoDetails]  walks the tree twice with [filepath.Walk]: a first
      walk that filters and collects [fileStructure] and [currentCode], a
      second walk that tallies file extensions; then picks the primary
      language by ranging over the tally map and derives the entry point;
    - [main]            serialises the [ProjectContext] with
      [json.MarshalIndent].

    The file system is a snapshot (a tree of entries with the outcome of each
    system call on them); the Go library functions the program calls
    ([filepath.Walk], [filepath.Ext], [bufio.Scanner], [gitignore], the key
    order of [encoding/json]) are modelled by the functions of the same name
    below. *)

From Stdlib Require Import ZArith String Ascii List Lia.
From stdpp Require Import base gmap strings list sorting.

Open Scope string_scope.
Open Scope Z_scope.

(** ** Errors and results *)

(** The [error] values the program can meet: the errno of a failed system
    call, and [bufio.ErrTooLong]. *)
Inductive error : Type :=
| ENOENT
| EACCES
| ENOTDIR
| EISDIR
| EIO
| ErrTooLong.

(** [os.IsNotExist]. *)
Definition IsNotExist (e : error) : bool :=
  match e with
  | ENOENT => true
  | _ => false
  end.

(** A Go pair [(value, err)] of which exactly one side is meaningful. *)
Inductive io (A : Type) : Type :=
| Ok (a : A)
| Err (e : error).
Arguments Ok {A} a.
Arguments Err {A} e.

(** What a call of [getRepoDetails] does: return its four values with a nil
    error, return [("", nil, "", nil, err)], or panic (nil dereference). *)
Inductive outcome (A : Type) : Type :=
| Returned (a : A)
| Failed (e : error)
| Panicked.
Arguments Returned {A} a.
Arguments Failed {A} e.
Arguments Panicked {A}.

(** ** The file system snapshot *)

(** An entry of the tree, with the outcome of the system calls on it:
    - [File name content]: [Lstat] succeeds and reports a non-directory;
      [content] is what opening and reading it gives;
    - [Dir name readdir entries]: [Lstat] reports a directory; [readdir] is
      the error of listing it, if any; [entries] are its entries, in the
      order of their names ([readDirNames] sorts);
    - [Bad name lstat]: [Lstat] on the entry fails with [lstat]. *)
#[local] Unset Elimination Schemes.
Inductive node : Type :=
| File (name : string) (content : io string)
| Dir (name : string) (readdir : option error) (entries : list node)
| Bad (name : string) (lstat : error).

#[local] Set Elimination Schemes.

Definition nodeName (n : node) : string :=
  match n with
  | File name _ => name
  | Dir name _ _ => name
  | Bad name _ => name
  end.

(** Induction on [node] that reaches the entries of a directory. *)
Section NodeInduction.
Variable P : node -> Prop.
Hypothesis HFile : forall name content, P (File name content).
Hypothesis HDir : forall name readdir entries,
    Forall P entries -> P (Dir name readdir entries).
Hypothesis HBad : forall name lstat, P (Bad name lstat).

Fixpoint node_nested_ind (n : node) {struct n} : P n :=
  match n with
  | File name content => HFile name content
  | Dir name readdir entries =>
      HDir name readdir entries
        ((fix all (l : list node) : Forall P l :=
            match l with
            | [] => @List.Forall_nil node P
            | c :: l' =>
                @List.Forall_cons node P c l' (node_nested_ind c) (all l')
            end) entries)
  | Bad name lstat => HBad name lstat
  end.
End NodeInduction.

(** [fs.FileInfo], as far as the program looks at it. *)
Record FileInfo : Type := { Name : string; IsDir : bool }.

Definition Lstat (n : node) : io FileInfo :=
  match n with
  | File name _ => Ok {| Name := name; IsDir := false |}
  | Dir name _ _ => Ok {| Name := name; IsDir := true |}
  | Bad _ e => Err e
  end.

(** A path handed to the walk function: the names that lead from the root to
    the entry, and the entry of the snapshot it names. *)
Record Path : Type := { elems : list string; target : node }.

(** [os.ReadFile]. *)
Definition ReadFile (p : Path) : io string :=
  match target p with
  | File _ content => content
  | Dir _ _ _ => Err EISDIR
  | Bad _ e => Err e
  end.

(** ** path/filepath *)

Definition slash : ascii := "/"%char.
Definition dot : ascii := "."%char.

Fixpoint hasSeparator (s : string) : bool :=
  match s with
  | EmptyString => false
  | String c rest => Ascii.eqb c slash || hasSeparator rest
  end.

(** [filepath.Rel(path, filePath)] for a [filePath] the walk of [path]
    produced: "." for the root itself, the names joined by "/" below it.
    (On such arguments [Rel] returns no error.) *)
Definition relPathOf (names : list string) : string :=
  match names with
  | [] => "."
  | _ => String.concat "/" names
  end.

Definition Rel (filePath : Path) : string := relPathOf (elems filePath).

(** [filepath.Ext]: the suffix that starts at the last dot of the last
    element of the path, empty when there is none. *)
Fixpoint Ext (path : string) : string :=
  match path with
  | EmptyString => ""
  | String c rest =>
      match Ext rest with
      | EmptyString =>
          if hasSeparator rest then ""
          else if Ascii.eqb c dot then path
          else ""
      | ext => ext
      end
  end.


(** The error a [WalkFunc] or [walk] returns: nil, [filepath.SkipDir], another
    error; [WPanic] stands for a call that does not return. *)
Inductive werror : Type :=
| WNil
| WSkipDir
| WErr (e : error)
| WPanic.

Section Walk.
Context {S : Type}.

(** [filepath.WalkFunc], with the state the closure captures passed
    through. *)
Definition WalkFunc : Type :=
  Path -> option FileInfo -> option error -> S -> S * werror.

Variable walkFn : WalkFunc.

(** The loop of [walk] over the names of a directory. *)
Definition walkNames (walk : list string -> node -> S -> S * werror)
    (path : list string) : list node -> S -> S * werror :=
  fix loop (names : list node) (s : S) {struct names} : S * werror :=
    match names with
    | [] => (s, WNil)
    | c :: rest =>
        let filename := (path ++ [nodeName c])%list in
        match Lstat c with
        | Err e =>
            let '(s1, err) :=
              walkFn {| elems := filename; target := c |} None (Some e) s in
            match err with
            | WNil | WSkipDir => loop rest s1
            | _ => (s1, err)
            end
        | Ok fileInfo =>
            let '(s1, err) := walk filename c s in
            match err with
            | WNil => loop rest s1
            | WSkipDir => if IsDir fileInfo then loop rest s1 else (s1, err)
            | _ => (s1, err)
            end
        end
    end.

(** [filepath.walk] (Go 1.16 and later: the directory is listed before the
    walk function is called on it). *)
Fixpoint walk (path : list string) (n : node) (s : S) {struct n}
    : S * werror :=
  match n with
  | File name _ =>
      walkFn {| elems := path; target := n |}
        (Some {| Name := name; IsDir := false |}) None s
  | Dir name readdir entries =>
      let '(s1, err1) :=
        walkFn {| elems := path; target := n |}
          (Some {| Name := name; IsDir := true |}) readdir s in
      match readdir, err1 with
      | None, WNil => walkNames walk path entries s1
      | _, _ => (s1, err1)
      end
  | Bad _ e =>
      (* [walk] is entered only after a successful [Lstat]; the case is
         what [Walk] and the loop do for a failed one *)
      walkFn {| elems := path; target := n |} None (Some e) s
  end.

(** [filepath.Walk]. *)
Definition Walk (root : node) (s : S) : S * werror :=
  let '(s1, err) :=
    match Lstat root with
    | Err e => walkFn {| elems := []; target := root |} None (Some e) s
    | Ok _ => walk [] root s
    end in
  match err with
  | WSkipDir => (s1, WNil)
  | _ => (s1, err)
  end.
End Walk.
Arguments WalkFunc S : clear implicits.

(** A walk function that also logs the relative path of every call. *)
Definition traced {S : Type} (fn : WalkFunc S) : WalkFunc (S * list string) :=
  fun filePath info err st =>
    let '(s1, r) := fn filePath info err (fst st) in
    ((s1, (snd st ++ [Rel filePath])%list), r).

(** ** strings *)

(** [strings.TrimPrefix]. *)
Definition TrimPrefix (s prefix : string) : string :=
  if String.prefix prefix s
  then String.substring (String.length prefix)
         (String.length s - String.length prefix) s
  else s.

(** ** bufio *)

Definition LF : ascii := ascii_of_nat 10.
Definition CR : ascii := ascii_of_nat 13.

(** [bufio.MaxScanTokenSize]: the size of the scanner's buffer. *)
Definition MaxScanTokenSize : Z := 65536.

(** The tokens [bufio.ScanLines] cuts, before the carriage return is
    dropped: the text between line feeds, and a last unterminated line when
    it is not empty. *)
Fixpoint rawLines (data : string) : list string :=
  match data with
  | EmptyString => []
  | String c rest =>
      if Ascii.eqb c LF then "" :: rawLines rest
      else match rawLines rest with
           | [] => [String c ""]
           | line :: lines => String c line :: lines
           end
  end.

(** [dropCR] of package bufio. *)
Fixpoint dropCR (data : string) : string :=
  match data with
  | EmptyString => ""
  | String c EmptyString => if Ascii.eqb c CR then "" else data
  | String c rest => String c (dropCR rest)
  end.

(** The loop [for scanner.Scan() { patterns = append(patterns,
    scanner.Text()) }] followed by [scanner.Err()]: the lines of the file, or
    [ErrTooLong] when a line does not fit the scanner's buffer. *)
Definition scanLines (data : string) : io (list string) :=
  if forallb (fun line => Z.of_nat (String.length line) <? MaxScanTokenSize)
       (rawLines data)
  then Ok (map dropCR (rawLines data))
  else Err ErrTooLong.

(** ** go-gitignore *)

(** [IgnorePattern]; the compiled regular expression is kept as the function
    [MatchString] computes. *)
Record IgnorePattern : Type :=
  { Pattern : string -> bool; Negate : bool; LineNo : nat; Line : string }.

Record GitIgnore : Type := { patterns : list IgnorePattern }.

(** [MatchesPath] (through [MatchesPathHow]): the last pattern that matches
    decides, a negated one only after an earlier match. (The replacement of
    the path separator by "/" is the identity where the separator is "/".) *)
Definition MatchesPath (gi : GitIgnore) (f : string) : bool :=
  fold_left
    (fun (matchesPath : bool) (ip : IgnorePattern) =>
       if Pattern ip f then
         if negb (Negate ip) then true
         else if matchesPath then false
         else matchesPath
       else matchesPath)
    (patterns gi) false.

Section Gitignore.
(** [getPatternFromLine]: the translation of one line into a regular
    expression and its negation flag, no expression for a comment or a
    blank line. *)
Variable getPatternFromLine : string -> option (string -> bool) * bool.

Fixpoint compileFrom (i : nat) (lines : list string) : list IgnorePattern :=
  match lines with
  | [] => []
  | line :: rest =>
      match getPatternFromLine line with
      | (Some pattern, negatePattern) =>
          {| Pattern := pattern; Negate := negatePattern;
             LineNo := (i + 1)%nat; Line := line |}
          :: compileFrom (Datatypes.S i) rest
      | (None, _) => compileFrom (Datatypes.S i) rest
      end
  end.

(** [gitignore.CompileIgnoreLines]. *)
Definition CompileIgnoreLines (lines : list string) : GitIgnore :=
  {| patterns := compileFrom 0 lines |}.

(** *** main.go: readGitignore *)

(** [os.Open(filepath.Join(path, ".gitignore"))] and the reads of the
    scanner: the entry of that name in the root, if the root is a
    directory. *)
Definition lookupEntry (name : string) (entries : list node) : option node :=
  List.find (fun c => String.eqb (nodeName c) name) entries.

Definition readGitignore (root : node) : io (option GitIgnore) :=
  match root with
  | Dir _ _ entries =>
      match lookupEntry ".gitignore" entries with
      | None => Ok None
      | Some (File _ (Err e)) => if IsNotExist e then Ok None else Err e
      | Some (File _ (Ok content)) =>
          match scanLines content with
          | Err e => Err e
          | Ok patterns => Ok (Some (CompileIgnoreLines patterns))
          end
      | Some (Dir _ _ _) => Err EISDIR
      | Some (Bad _ e) => if IsNotExist e then Ok None else Err e
      end
  | File _ _ => Err ENOTDIR
  | Bad _ e => if IsNotExist e then Ok None else Err e
  end.
End Gitignore.

(** ** main.go: getRepoDetails *)

(** The variables the first walk function captures. *)
Record scanState : Type :=
  { fileStructure : list string; currentCode : gmap string string }.

Definition matched (gitignore : option GitIgnore) (relPath : string) : bool :=
  match gitignore with
  | Some gi => MatchesPath gi relPath
  | None => false
  end.

(** The walk function of the first [filepath.Walk] (lines 68-98). A nil
    [info] is dereferenced by whichever [info.IsDir()] is reached first. *)
Definition scanFn (gitignore : option GitIgnore) : WalkFunc scanState :=
  fun filePath info err st =>
    match err with
    | Some e => (st, WErr e)
    | None =>
        let relPath := Rel filePath in
        match info with
        | None => (st, WPanic)
        | Some info =>
            if matched gitignore relPath then
              if IsDir info then (st, WSkipDir) else (st, WNil)
            else if IsDir info && String.eqb (Name info) ".git" then
              (st, WSkipDir)
            else if negb (IsDir info) then
              let st1 := {| fileStructure := fileStructure st ++ [relPath];
                            currentCode := currentCode st |} in
              match ReadFile filePath with
              | Err e => (st1, WErr e)
              | Ok content =>
                  ({| fileStructure := fileStructure st1;
                      currentCode := <[relPath := content]> (currentCode st1) |},
                   WNil)
              end
            else (st, WNil)
        end
    end.

(** Go's [int] is 64 bits wide on the platforms the program runs on. *)
Definition wrap64 (x : Z) : Z := (x + 2 ^ 63) mod 2 ^ 64 - 2 ^ 63.

(** [langs[ext]++] *)
Definition increment (ext : string) (langs : gmap string Z) : gmap string Z :=
  <[ext := wrap64 (default 0 (langs !! ext) + 1)]> langs.

(** The walk function of the second [filepath.Walk] (lines 104-110): it
    looks at neither [err] nor the ignore rules. *)
Definition tallyFn : WalkFunc (gmap string Z) :=
  fun filePath info err langs =>
    match info with
    | None => (langs, WPanic)
    | Some info =>
        if negb (IsDir info) then (increment (Ext (Name info)) langs, WNil)
        else (langs, WNil)
    end.

(** The order in which a [range] over a Go map yields its entries: the
    language leaves it unspecified and the runtime randomises it. A run is
    modelled with the enumeration it happened to get. *)
Definition MapRange (V : Type) : Type := list (string * V) -> list (string * V).

Definition valid_range {V : Type} (r : MapRange V) : Prop :=
  forall l, r l ≡ₚ l.

(** The loop of lines 112-119 over the entries in the order of the range. *)
Definition selectPrimary (entries : list (string * Z)) : string * Z :=
  fold_left
    (fun (acc : string * Z) (entry : string * Z) =>
       let '(primaryLang, maxCount) := acc in
       let '(lang, count) := entry in
       if count >? maxCount then (lang, count) else (primaryLang, maxCount))
    entries ("", 0).

Definition entryPointOf (primaryLang : string) : string :=
  "main." +:+ TrimPrefix primaryLang ".".

Definition emptyScan : scanState :=
  {| fileStructure := []; currentCode := ∅ |}.

(** The extension tally of the tree: the map the second walk leaves. *)
Definition tally (root : node) : gmap string Z := fst (Walk tallyFn root ∅).

Section GetRepoDetails.
Variable getPatternFromLine : string -> option (string -> bool) * bool.
Variable mapRange : MapRange Z.

Definition getRepoDetails (root : node)
    : outcome (string * list string * string * gmap string string) :=
  match readGitignore getPatternFromLine root with
  | Err e => Failed e
  | Ok gitignore =>
      let '(st, err) := Walk (scanFn gitignore) root emptyScan in
      match err with
      | WErr e => Failed e
      | WPanic => Panicked
      | _ =>
          (* the error the second walk returns is dropped *)
          let '(langs, err2) := Walk tallyFn root ∅ in
          match err2 with
          | WPanic => Panicked
          | _ =>
              let '(primaryLang, _) :=
                selectPrimary (mapRange (map_to_list langs)) in
              let entryPoint := entryPointOf primaryLang in
              Returned (primaryLang, fileStructure st, entryPoint,
                        currentCode st)
          end
      end
  end.
End GetRepoDetails.

(** ** main.go: ProjectContext and its serialisation *)

Record Context : Type :=
  { ProjectName : string;
    ProjectDescription : string;
    FileStructure : list string }.

Record ProjectContext : Type :=
  { Context_ : Context;
    CurrentCode : gmap string string }.

(** The order of [encoding/json] on map keys: byte-wise on the key strings. *)
Definition keyLe (a b : string * string) : Prop :=
  String.le (fst a) (fst b).

#[global] Instance keyLe_dec : RelDecision keyLe.
Proof. intros a b. unfold keyLe. apply _. Defined.

(** The entries of a map as [encoding/json] writes them: collected by a range
    over the map, then sorted by key. *)
Definition sortedEntries (mapRange : MapRange string)
    (m : gmap string string) : list (string * string) :=
  merge_sort keyLe (mapRange (map_to_list m)).

Definition quoteMark : string := String (ascii_of_nat 34) "".

Section Marshal.
(** The JSON string literal of a Go string, quotes and escapes included. *)
Variable quote : string -> string.

(** A line break followed by [depth] times the indent "  ". *)
Definition newline (depth : nat) : string :=
  String LF "" +:+ String.concat "" (repeat "  " depth).

Definition key (name : string) : string :=
  quoteMark +:+ name +:+ quoteMark +:+ ": ".

(** A [[]string] at nesting [depth]; the nil slice is written [null]. *)
Definition marshalStrings (depth : nat) (l : list string) : string :=
  match l with
  | [] => "null"
  | _ =>
      "[" +:+ newline (depth + 1)
      +:+ String.concat ("," +:+ newline (depth + 1)) (map quote l)
      +:+ newline depth +:+ "]"
  end.

(** The entries of a (non-nil) [map[string]string] at nesting [depth]. *)
Definition marshalEntries (depth : nat) (entries : list (string * string))
    : string :=
  match entries with
  | [] => "{}"
  | _ =>
      "{" +:+ newline (depth + 1)
      +:+ String.concat ("," +:+ newline (depth + 1))
            (map (fun kv => quote (fst kv) +:+ ": " +:+ quote (snd kv)) entries)
      +:+ newline depth +:+ "}"
  end.

(** [json.MarshalIndent(projectContext, "", "  ")]: struct fields in the
    order of their declaration, map keys sorted. For this type it returns no
    error. *)
Definition MarshalIndent (mapRange : MapRange string) (v : ProjectContext)
    : string :=
  "{" +:+ newline 1
  +:+ key "context" +:+ "{" +:+ newline 2
  +:+ key "project_name" +:+ quote (ProjectName (Context_ v)) +:+ ","
  +:+ newline 2
  +:+ key "project_description" +:+ quote (ProjectDescription (Context_ v))
  +:+ "," +:+ newline 2
  +:+ key "file_structure" +:+ marshalStrings 2 (FileStructure (Context_ v))
  +:+ newline 1 +:+ "}," +:+ newline 1
  +:+ key "current_code"
  +:+ marshalEntries 1 (sortedEntries mapRange (CurrentCode v))
  +:+ newline 0 +:+ "}".
End Marshal.

(** ** Concrete instances for the examples *)

(** What [getPatternFromLine] yields for a line of plain name characters
    (no glob character, no slash, no leading [!] or [#]): an expression
    that matches the paths having [line] as one of their elements (the line
    at the start or after a slash, followed by the end or by a slash). A
    blank line yields no pattern. *)
Fixpoint stripPrefix (p s : string) : option string :=
  match p, s with
  | EmptyString, _ => Some s
  | String a p', String b s' => if Ascii.eqb a b then stripPrefix p' s' else None
  | String _ _, EmptyString => None
  end.

Fixpoint elementMatch (line f : string) (atStart : bool) : bool :=
  (atStart &&
   match stripPrefix line f with
   | Some EmptyString => true
   | Some (String c _) => Ascii.eqb c slash
   | None => false
   end)
  || match f with
     | EmptyString => false
     | String c f' => elementMatch line f' (Ascii.eqb c slash)
     end.

Definition plainPattern (line : string) : option (string -> bool) * bool :=
  match line with
  | EmptyString => (None, false)
  | _ => (Some (fun f => elementMatch line f true), false)
  end.

(** A stand-in for the string encoder of [encoding/json] on strings that
    need no escape. *)
Definition plainQuote (s : string) : string := quoteMark +:+ s +:+ quoteMark.

(** Two enumerations a range may produce. *)
Definition forwards {V : Type} : MapRange V := fun l => l.
Definition backwards {V : Type} : MapRange V := fun l => rev l.

(** ** Predicates of the statements *)

(** The results with which a walk is abandoned. *)
Definition failure (r : werror) : Prop :=
  match r with
  | WErr _ | WPanic => True
  | _ => False
  end.

(** The inventory and the content map list the same paths. *)
Definition inventoried (st : scanState) : Prop :=
  forall p, p ∈ fileStructure st <-> is_Some (currentCode st !! p).

(** One turn of the loop of [selectPrimary], on pairs. *)
Definition selectStep (acc entry : string * Z) : string * Z :=
  if snd entry >? snd acc then entry else acc.

(** Following the specification: the extension tally "accumulated over
    exactly the same visited-file set as fileStructure", that is, one count
    per entry of the inventory. *)
Definition specTally (files : list string) : gmap string Z :=
  fold_left (fun langs relPath => increment (Ext relPath) langs) files ∅.







(** The tree holds listable directories only: no file, no failing call. *)
Fixpoint dirsOnly (n : node) : bool :=
  match n with
  | Dir _ None entries => forallb dirsOnly entries
  | _ => false
  end.

(** Two runs of a walk end with the same error and in corresponding
    states. *)
Definition similar {S1 S2 : Type} (R : S1 -> S2 -> Prop)
    (x : S1 * werror) (y : S2 * werror) : Prop :=
  snd x = snd y /\ R (fst x) (fst y).

Definition gitignoreName : string := ".gitignore".

Definition emptyGitignore : node := File gitignoreName (Ok "").

(** The rule set compiled from an ignore-spec file without lines. *)
Definition emptyRules (gp : string -> option (string -> bool) * bool)
    : option GitIgnore :=
  Some (CompileIgnoreLines gp []).

(** The state of a scan that met the ignore-spec file corresponds to the
    state of one that did not: equal but for the entry of that file. *)
Definition sameButGitignore (a b : scanState) : Prop :=
  filter (fun p => p <> gitignoreName) (fileStructure b) = fileStructure a
  /\ delete gitignoreName (currentCode b) = currentCode a.

(** The ignore-spec file is listed, with empty content. *)
Definition listsGitignore (b : scanState) : Prop :=
  gitignoreName ∈ fileStructure b
  /\ currentCode b !! gitignoreName = Some "".

(** The states of two scans, the second of which has listed the ignore-spec
    file. *)
Definition sameAndListed (a b : scanState) : Prop :=
  sameButGitignore a b /\ listsGitignore b.

(** The calls a walk makes below the root, none of them on the root's
    ignore-spec file. *)
Definition belowRoot (path : list string) (n : node) : Prop :=
  path <> [] /\ relPathOf path <> gitignoreName.

(** The tally of a walk that met the ignore-spec file, against one that did
    not. *)
Definition countedGitignore (a b : gmap string Z) : Prop :=
  b = increment gitignoreName a.

(** ** Example trees *)

(** A repository with version-control metadata, an ignore-spec file that
    lists [sub], and sources at two levels. *)
Definition sampleRepo : node :=
  Dir "repo" None
    [ Dir ".git" None [File "HEAD" (Ok "ref: refs/heads/main")];
      File ".gitignore" (Ok "sub");
      File "a.go" (Ok "package main");
      Dir "lib" None [File "x.go" (Ok "package lib")];
      Dir "sub" None [File "b.go" (Ok "package sub")] ].

Definition sampleRules : option GitIgnore :=
  Some (CompileIgnoreLines plainPattern ["sub"]).

Definition sampleFiles : list string := [".gitignore"; "a.go"; "lib/x.go"].

Definition sampleCode : gmap string string :=
  <["lib/x.go" := "package lib"]>
    (<["a.go" := "package main"]> (<[".gitignore" := "sub"]> ∅)).

(** Two files whose extensions tie. *)
Definition tieRepo : node :=
  Dir "repo" None [File "a.go" (Ok "package main"); File "b.md" (Ok "# b")].

Definition tieCode : gmap string string :=
  <["b.md" := "# b"]> {["a.go" := "package main"]}.

(** Five [.go] files, two [.md] files and one [.json] file. *)
Definition countsRepo : node :=
  Dir "repo" None
    [ File "README.md" (Ok "# repo");
      File "a.go" (Ok "package main");
      File "b.go" (Ok "package main");
      File "c.go" (Ok "package main");
      File "conf.json" (Ok "{}");
      Dir "docs" None [File "guide.md" (Ok "# guide")];
      File "main.go" (Ok "package main");
      Dir "pkg" None [File "d.go" (Ok "package pkg")] ].

Definition countsFiles : list string :=
  ["README.md"; "a.go"; "b.go"; "c.go"; "conf.json"; "docs/guide.md";
   "main.go"; "pkg/d.go"].

Definition bareRepo : node :=
  Dir "repo" None [Dir "cmd" None []; Dir "docs" None [Dir "img" None []]].

Definition countsCode : gmap string string :=
  list_to_map
    [("README.md", "# repo"); ("a.go", "package main");
     ("b.go", "package main"); ("c.go", "package main");
     ("conf.json", "{}"); ("docs/guide.md", "# guide");
     ("main.go", "package main"); ("pkg/d.go", "package pkg")].

(** The tally of the example of the specification. *)
Definition countsTally : gmap string Z :=
  <[".go" := 5]> (<[".md" := 2]> (<[".json" := 1]> ∅)).

(** One source file next to the metadata of version control. *)
Definition metadataRepo : node :=
  Dir "repo" None
    [ Dir ".git" None
        [ File "HEAD" (Ok "ref: refs/heads/main");
          File "config" (Ok "[core]");
          File "description" (Ok "Unnamed repository") ];
      File "main.go" (Ok "package main") ].

Definition mainOnly : gmap string string := {["main.go" := "package main"]}.

(** The same, with a directory of the metadata that cannot be listed. *)
Definition lockedRepo : node :=
  Dir "repo" None
    [ Dir ".git" None [Dir "objects" (Some EACCES) [File "pack" (Ok "")]];
      File "main.go" (Ok "package main") ].

(** The same, with an entry of the metadata on which [Lstat] fails. *)
Definition brokenRepo : node :=
  Dir "repo" None
    [ Dir ".git" None [Bad "index.lock" EACCES];
      File "main.go" (Ok "package main") ].

(** A root whose ignore-spec file cannot be opened. *)
Definition sealedRepo : node :=
  Dir "repo" None
    [ File ".gitignore" (Err EACCES); File "a.go" (Ok "package main") ].

(** A project context over the example inventory. *)
Definition sampleContext : ProjectContext :=
  {| Context_ :=
       {| ProjectName := "repo";
          ProjectDescription := "A sample.";
          FileStructure := sampleFiles |};
     CurrentCode := sampleCode |}.

(** A repository without ignore-spec file, and the same with an empty
    one. *)
Definition plainRepo : node :=
  Dir "repo" None
    [ Dir ".git" None [File "HEAD" (Ok "ref: refs/heads/main")];
      File "a.go" (Ok "package main");
      File "b.go" (Ok "package main") ].

Definition plainRepoWithGitignore : node :=
  Dir "repo" None
    [ Dir ".git" None [File "HEAD" (Ok "ref: refs/heads/main")];
      emptyGitignore;
      File "a.go" (Ok "package main");
      File "b.go" (Ok "package main") ].

Definition plainCode : gmap string string :=
  <["b.go" := "package main"]> {["a.go" := "package main"]}.

(** ** What the first walk collects *)

(** The files the first walk lists below [n], with their contents, in the
    order of the walk: a matched file is left out, a directory that is
    matched or named ".git" is left out with all it holds, the entries of
    another directory follow one another in the order of the listing. *)
Fixpoint collected (gitignore : option GitIgnore) (path : list string)
    (n : node) : list (string * string) :=
  match n with
  | File _ content =>
      if matched gitignore (relPathOf path) then []
      else match content with
           | Ok text => [(relPathOf path, text)]
           | Err _ => []
           end
  | Dir name _ entries =>
      if matched gitignore (relPathOf path) || String.eqb name ".git" then []
      else flat_map (fun c => collected gitignore (path ++ [nodeName c]) c)
             entries
  | Bad _ _ => []
  end.

(** The assignments [currentCode[relPath] = content], one after the other. *)
Definition assignAll (entries : list (string * string))
    (m : gmap string string) : gmap string string :=
  fold_left (fun m kv => <[fst kv := snd kv]> m) entries m.

(** [n] is the entry that [path] leads to from the root [root]. *)
Inductive reaches : node -> list string -> node -> Prop :=
| reaches_root (n : node) : reaches n [] n
| reaches_entry (name : string) (readdir : option error)
    (entries : list node) (c : node) (path : list string) (n : node) :
    c ∈ entries -> reaches c path n ->
    reaches (Dir name readdir entries) (nodeName c :: path) n.

(** No directory on the way from the root down to [path], the root
    included, is matched by the rule set or named ".git". *)
Definition unprunedWay (gitignore : option GitIgnore) (root : node)
    (path : list string) : Prop :=
  forall s1 s2 name readdir entries,
    path = (s1 ++ s2)%list -> s2 <> [] ->
    reaches root s1 (Dir name readdir entries) ->
    matched gitignore (relPathOf s1) = false /\ name <> ".git".

(** An entry on which the first walk function returns an error: a file that
    is not matched and cannot be read, a directory that cannot be listed, an
    entry on which [Lstat] fails. *)
Definition faulty (gitignore : option GitIgnore) (relPath : string)
    (n : node) : Prop :=
  match n with
  | File _ (Err _) => matched gitignore relPath = false
  | File _ (Ok _) => False
  | Dir _ (Some _) _ => True
  | Dir _ None _ => False
  | Bad _ _ => True
  end.

(** [Lstat] succeeds on every entry of the tree. *)
Fixpoint lstatOk (n : node) : bool :=
  match n with
  | File _ _ => true
  | Dir _ _ entries => forallb lstatOk entries
  | Bad _ _ => false
  end.

(** A tree with an unreadable source file. *)
Definition unreadableRepo : node :=
  Dir "repo" None
    [ File "a.go" (Ok "package main");
      Dir "lib" None [File "x.go" (Err EACCES)] ].

(** The names of the files the second walk meets below [n], in the order of
    the walk: it goes into every directory it can list. *)
Fixpoint tallied (n : node) : list string :=
  match n with
  | File name _ => [name]
  | Dir _ None entries => flat_map tallied entries
  | Dir _ (Some _) _ => []
  | Bad _ _ => []
  end.

(** The count of an extension in a tally, zero for a missing key. *)
Definition countOf (langs : gmap string Z) (ext : string) : Z :=
  default 0 (langs !! ext).

(** How many of the names have the extension [ext]. *)
Definition occurrences (ext : string) (names : list string) : nat :=
  length (filter (fun name => Ext name = ext) names).

Fixpoint hasDot (s : string) : bool :=
  match s with
  | EmptyString => false
  | String c rest => Ascii.eqb c dot || hasDot rest
  end.

(** ** Text files *)

Fixpoint hasLF (s : string) : bool :=
  match s with
  | EmptyString => false
  | String c rest => Ascii.eqb c LF || hasLF rest
  end.

(** The last character of [s] is a carriage return. *)
Fixpoint endsInCR (s : string) : bool :=
  match s with
  | EmptyString => false
  | String c EmptyString => Ascii.eqb c CR
  | String _ rest => endsInCR rest
  end.

(** The text of a file whose lines each end with [terminator]. *)
Definition unlines (terminator : string) (lines : list string) : string :=
  String.concat "" (map (fun line => line +:+ terminator) lines).

(** A line [bufio.Scanner] returns as it stands. *)
Definition plainLine (line : string) : Prop :=
  hasLF line = false /\ endsInCR line = false
  /\ Z.of_nat (String.length line) < MaxScanTokenSize.

(** A root whose ignore-spec file holds the given text. *)
Definition repoWithRules (text : string) : node :=
  Dir "repo" None [File ".gitignore" (Ok text); File "a.go" (Ok "package main")].

(** A line that does not fit the buffer of the scanner. *)
Definition longLine : string :=
  String.concat "" (repeat "a" (Z.to_nat MaxScanTokenSize)).

(** ** main.go: safeFileName *)

Definition backslash : ascii := ascii_of_nat 92.

(** [strings.ReplaceAll(s, old, new)] for an [old] of one byte, as in both
    calls of [safeFileName]: every occurrence of the byte is replaced. *)
Fixpoint ReplaceAll (s : string) (old : ascii) (new : string) : string :=
  match s with
  | EmptyString => ""
  | String c rest =>
      if Ascii.eqb c old then new +:+ ReplaceAll rest old new
      else String c (ReplaceAll rest old new)
  end.

Definition safeFileName (path : string) : string :=
  ReplaceAll (ReplaceAll path slash "_") backslash "_".

Fixpoint hasBackslash (s : string) : bool :=
  match s with
  | EmptyString => false
  | String c rest => Ascii.eqb c backslash || hasBackslash rest
  end.

(** ** main.go: generatePrompt *)

Definition lineBreak : string := String LF "".

(** [fmt.Sprintf] with the format of lines 128-135, whose verbs are all
    [%s], and [strings.Join(fileStructure, "\n")]. *)
Definition generatePrompt (primaryLang : string) (fileStructure : list string)
    (entryPoint : string) : string :=
  let fileStructureStr := String.concat lineBreak fileStructure in
  "Primary Language: " +:+ primaryLang +:+ lineBreak +:+ lineBreak
  +:+ "File Structure:" +:+ lineBreak +:+ fileStructureStr
  +:+ lineBreak +:+ lineBreak
  +:+ "Entry Point: " +:+ entryPoint +:+ lineBreak +:+ lineBreak
  +:+ "Based on the above information, please:" +:+ lineBreak
  +:+ "1. Describe the purpose of the project." +:+ lineBreak
  +:+ "2. Provide a best guess description of the components and how they work with one another."
  +:+ lineBreak.

(** The prompt of lines 222-225. *)
Definition newPromptOf (jsonContent : string) : string :=
  "Take in the following json data, and attempt to write a detailed project description based off of the components and their interactions with one another:"
  +:+ lineBreak +:+ lineBreak +:+ jsonContent.

(** ** main.go: callOpenAI *)

(** What [client.CreateChatCompletion] gives for a request with the fixed
    model and system message and [prompt] as user message: an error, or the
    message contents of the choices of the response. *)
Inductive serviceError : Type :=
| ServiceError (message : string).

Definition Completion : Type := string -> list string + serviceError.

(** What a call of [callOpenAI] does: return the content and a nil error,
    return the error, or panic on [resp.Choices[0]] of an empty slice. *)
Inductive callResult : Type :=
| Answer (content : string)
| ServiceFailure (e : serviceError)
| IndexPanic.

Definition callOpenAI (complete : Completion) (prompt : string) : callResult :=
  match complete prompt with
  | inr e => ServiceFailure e
  | inl [] => IndexPanic
  | inl (choice :: _) => Answer choice
  end.

(** ** path/filepath: Clean, Join, Base (separator "/", no volume names) *)

(** The elements of a path between its separators, empty ones included. *)
Fixpoint splitPath (path : string) : list string :=
  match path with
  | EmptyString => [""]
  | String c rest =>
      if Ascii.eqb c slash then "" :: splitPath rest
      else match splitPath rest with
           | [] => [String c ""]
           | e :: es => String c e :: es
           end
  end.

(** One element of the path in [filepath.Clean], [out] being the elements
    written so far, last first: an empty element and "." are dropped; ".."
    removes the last element written if that is no ".." itself, is written
    in a path that is not rooted, and is dropped at the root; any other
    element is written. *)
Definition cleanStep (rooted : bool) (out : list string) (e : string)
    : list string :=
  if String.eqb e "" || String.eqb e "." then out
  else if String.eqb e ".." then
    match out with
    | top :: below => if String.eqb top ".." then e :: out else below
    | [] => if rooted then [] else [e]
    end
  else e :: out.

(** [filepath.Clean]. *)
Definition Clean (path : string) : string :=
  if String.eqb path "" then "."
  else
    let rooted := String.prefix "/" path in
    let out := fold_left (cleanStep rooted) (splitPath path) [] in
    let body := String.concat "/" (rev out) in
    if rooted then "/" +:+ body
    else if String.eqb body "" then "."
    else body.

(** A path element [filepath.Clean] keeps as it is: a name without
    separator other than the empty one, "." and "..". *)
Definition plainElement (e : string) : bool :=
  negb (hasSeparator e) && negb (String.eqb e "") && negb (String.eqb e ".")
  && negb (String.eqb e "..").

(** [filepath.Join]: the elements from the first non-empty one on, joined
    by the separator and cleaned; the empty string when all are empty. *)
Fixpoint Join (elem : list string) : string :=
  match elem with
  | [] => ""
  | e :: rest =>
      if String.eqb e "" then Join rest
      else Clean (String.concat "/" elem)
  end.

(** [filepath.Base] (called [BaseName] here, [Base] being the last element
    of a relative path above): "." for the empty path, else the last
    element once trailing separators are removed, "/" when there is
    none. *)
Definition BaseName (path : string) : string :=
  if String.eqb path "" then "."
  else match filter (fun e => e <> "") (splitPath path) with
       | [] => "/"
       | e :: es => List.last es e
       end.

(** ** main.go: main *)

(** What the process does to the world: the directories it made with
    [os.MkdirAll], the files it wrote with [os.WriteFile] (path and data, in
    the order of the writes), the lines it printed on standard output. *)
Record World : Type :=
  { created : list string;
    written : list (string * string);
    printed : list string }.

(** Why [log.Fatal] or [log.Fatalf] ended the process. *)
Inductive fatal : Type :=
| FatalEnv
| FatalArgs
| FatalMkdir (e : error)
| FatalRepoDetails (e : error)
| FatalOpenAI (e : serviceError)
| FatalWriteJSON (e : error)
| FatalReadJSON (e : error)
| FatalDescription (e : serviceError)
| FatalWriteMarkdown (e : error).

(** How the process ends: it returns from [main], exits through [log.Fatal],
    or panics. *)
Inductive exit : Type :=
| ExitOk
| Fatal (why : fatal)
| Panic.

(** What the process finds around it: the outcome of [godotenv.Load], the
    arguments, the outcome of each system call by its path, the tree under a
    directory path, the completion service. *)
Record Env : Type :=
  { dotenv : option error;
    Args : list string;
    mkdirAll : string -> option error;
    treeAt : string -> node;
    complete : Completion;
    writeFile : string -> option error;
    readBack : string -> option error }.

(** [os.ReadFile] of a file the process has written, possibly failing: the
    data of the last write to that path. *)
Definition readWritten (env : Env) (w : World) (path : string) : io string :=
  match readBack env path with
  | Some e => Err e
  | None =>
      match List.find (fun entry => String.eqb (fst entry) path) (rev (written w)) with
      | Some entry => Ok (snd entry)
      | None => Err ENOENT
      end
  end.

Section Main.
Variable getPatternFromLine : string -> option (string -> bool) * bool.
Variable langsRange : MapRange Z.
Variable codeRange : MapRange string.
Variable quote : string -> string.

Definition outputDirOf (dirPath : string) : string :=
  Join ["data"; safeFileName dirPath].

Definition jsonFilePathOf (dirPath : string) : string :=
  Join [outputDirOf dirPath; "project_context.json"].

Definition mdFilePathOf (dirPath : string) : string :=
  Join [outputDirOf dirPath; "project_description.md"].

Definition projectContextOf (dirPath finalPrompt : string)
    (fileStructure : list string) (currentCode : gmap string string)
    : ProjectContext :=
  {| Context_ := {| ProjectName := BaseName dirPath;
                    ProjectDescription := finalPrompt;
                    FileStructure := fileStructure |};
     CurrentCode := currentCode |}.

Definition main (env : Env) : World * exit :=
  let w0 := {| created := []; written := []; printed := [] |} in
  (* loadEnv() *)
  match dotenv env with
  | Some _ => (w0, Fatal FatalEnv)
  | None =>
  if Nat.ltb (length (Args env)) 2 then (w0, Fatal FatalArgs)
  else
  let dirPath := nth 1 (Args env) "" in
  let outputDir := outputDirOf dirPath in
  match mkdirAll env outputDir with
  | Some e => (w0, Fatal (FatalMkdir e))
  | None =>
  let w1 := {| created := [outputDir]; written := []; printed := [] |} in
  match getRepoDetails getPatternFromLine langsRange (treeAt env dirPath) with
  | Failed e => (w1, Fatal (FatalRepoDetails e))
  | Panicked => (w1, Panic)
  | Returned (primaryLang, fileStructure, entryPoint, currentCode) =>
  let initialPrompt := generatePrompt primaryLang fileStructure entryPoint in
  let w2 := {| created := created w1; written := [];
               printed := ["Initial Prompt:"; initialPrompt] |} in
  match callOpenAI (complete env) initialPrompt with
  | ServiceFailure e => (w2, Fatal (FatalOpenAI e))
  | IndexPanic => (w2, Panic)
  | Answer finalPrompt =>
  let projectContext :=
    projectContextOf dirPath finalPrompt fileStructure currentCode in
  (* for this type json.MarshalIndent returns no error *)
  let jsonData := MarshalIndent quote codeRange projectContext in
  let jsonFilePath := jsonFilePathOf dirPath in
  match writeFile env jsonFilePath with
  | Some e => (w2, Fatal (FatalWriteJSON e))
  | None =>
  let w3 := {| created := created w2;
               written := [(jsonFilePath, jsonData)];
               printed := printed w2
                          ++ ["Project context written to " +:+ jsonFilePath] |} in
  match readWritten env w3 jsonFilePath with
  | Err e => (w3, Fatal (FatalReadJSON e))
  | Ok jsonContent =>
  let newPrompt := newPromptOf jsonContent in
  match callOpenAI (complete env) newPrompt with
  | ServiceFailure e => (w3, Fatal (FatalDescription e))
  | IndexPanic => (w3, Panic)
  | Answer projectDescription =>
  let mdFilePath := mdFilePathOf dirPath in
  match writeFile env mdFilePath with
  | Some e => (w3, Fatal (FatalWriteMarkdown e))
  | None =>
    ({| created := created w3;
        written := written w3 ++ [(mdFilePath, projectDescription)];
        printed := printed w3
                   ++ ["Project description written to " +:+ mdFilePath] |},
     ExitOk)
  end end end end end end end end.
End Main.

(** ** Example environments *)

(** A run where every call succeeds and the service answers each prompt
    with one choice. *)
Definition sampleEnv : Env :=
  {| dotenv := None;
     Args := ["describe"; "/home/me/repo"];
     mkdirAll := fun _ => None;
     treeAt := fun _ => countsRepo;
     complete := fun prompt => inl ["An answer to: " +:+ prompt];
     writeFile := fun _ => None;
     readBack := fun _ => None |}.

(** A run where the service answers every prompt with no choice at all. *)
Definition muteEnv : Env :=
  {| dotenv := None;
     Args := ["describe"; "/home/me/repo"];
     mkdirAll := fun _ => None;
     treeAt := fun _ => countsRepo;
     complete := fun _ => inl [];
     writeFile := fun _ => None;
     readBack := fun _ => None |}.

(** ** Directory-only and negated lines of the ignore-spec file *)







(** * Properties *)

(** ** The walk *)

Section WalkInvariant.
Context {S : Type} (fn : WalkFunc S).
(** [Q]: the calls the walk makes; [I]: what they keep; [E]: the results
    after which [I] is not asked for. *)
Variable Q : list string -> node -> Prop.
Variable I : S -> Prop.
Variable E : werror -> Prop.
Hypothesis E_nil : ~ E WNil.
Hypothesis E_skip : ~ E WSkipDir.
Hypothesis step : forall path n info err s s' r,
    Q path n -> I s ->
    fn {| elems := path; target := n |} info err s = (s', r) ->
    I s' \/ E r.
Hypothesis descend : forall path name entries c s s',
    Q path (Dir name None entries) ->
    fn {| elems := path; target := Dir name None entries |}
       (Some {| Name := name; IsDir := true |}) None s = (s', WNil) ->
    c ∈ entries ->
    Q (path ++ [nodeName c]) c.

Lemma walkNames_invariant path entries :
  Forall (fun c => forall path s s' r,
              Q path c -> I s -> walk fn path c s = (s', r) -> I s' \/ E r)
         entries ->
  forall s s' r,
    (forall c, c ∈ entries -> Q (path ++ [nodeName c]) c) ->
    I s ->
    walkNames fn (walk fn) path entries s = (s', r) ->
    I s' \/ E r.
Proof.
  induction 1 as [|c rest Hc _ IH]; intros s s' r HQ HI Hw; simpl in Hw.
  - injection Hw as <- <-. by left.
  - assert (Qc : Q (path ++ [nodeName c]) c) by (apply HQ; left).
    assert (Qrest : forall c', c' ∈ rest -> Q (path ++ [nodeName c']) c')
      by (intros; apply HQ; by right).
    destruct (Lstat c) as [fileInfo|e] eqn:Hl.
    + destruct (walk fn (path ++ [nodeName c]) c s) as [s1 err] eqn:Hwc.
      destruct (Hc _ _ _ _ Qc HI Hwc) as [HI1|HE];
        destruct err; try (injection Hw as <- <-; by right);
        try (by eapply IH); try contradiction.
      * destruct (IsDir fileInfo); [by eapply IH|].
        injection Hw as <- <-. by left.
      * injection Hw as <- <-. by left.
      * injection Hw as <- <-. by left.
    + destruct (fn _ None (Some e) s) as [s1 err] eqn:Hf.
      destruct (step _ _ _ _ _ _ _ Qc HI Hf) as [HI1|HE];
        destruct err; try (injection Hw as <- <-; by right);
        try (by eapply IH); try contradiction;
        injection Hw as <- <-; by left.
Qed.

Lemma walk_invariant n : forall path s s' r,
    Q path n -> I s -> walk fn path n s = (s', r) -> I s' \/ E r.
Proof.
  induction n as [name content|name readdir entries IH|name e]
    using node_nested_ind; intros path s s' r HQ HI Hw; simpl in Hw.
  - eapply step; eauto.
  - destruct (fn _ _ readdir s) as [s1 err1] eqn:Hf.
    pose proof (step _ _ _ _ _ _ _ HQ HI Hf) as Hs.
    destruct readdir as [e|]; [injection Hw as <- <-; exact Hs|].
    destruct err1; try (injection Hw as <- <-; exact Hs).
    destruct Hs as [HI1|HE]; [|contradiction].
    eapply walkNames_invariant; eauto.
  - eapply step; eauto.
Qed.

Lemma Walk_invariant root s s' r :
  Q [] root -> I s -> Walk fn root s = (s', r) -> I s' \/ E r.
Proof.
  intros HQ HI Hw. unfold Walk in Hw.
  assert (Hin : forall s1 err,
             match Lstat root with
             | Err e => fn {| elems := []; target := root |} None (Some e) s
             | Ok _ => walk fn [] root s
             end = (s1, err) -> I s1 \/ E err).
  { intros s1 err H. destruct (Lstat root) as [i|e].
    - eapply walk_invariant; eauto.
    - eapply step; eauto. }
  destruct (match Lstat root with Err e => _ | Ok _ => _ end) as [s1 err].
  specialize (Hin _ _ eq_refl).
  destruct err; injection Hw as <- <-; try exact Hin.
  destruct Hin as [?|?]; [by left|contradiction].
Qed.
End WalkInvariant.

(** Tracing does not change what a walk computes. *)
Section Traced.
Context {S : Type} (fn : WalkFunc S).



End Traced.

(** ** The first walk keeps the inventory and the content map together *)

Lemma scanFn_inventoried gitignore filePath info err st st' r :
  inventoried st ->
  scanFn gitignore filePath info err st = (st', r) ->
  inventoried st' \/ failure r.
Proof.
  unfold scanFn. intros Hst H.
  destruct err as [e|]; [injection H as <- <-; by right|].
  destruct info as [info|]; [|injection H as <- <-; by right].
  destruct (matched gitignore (Rel filePath)).
  { destruct (IsDir info); injection H as <- <-; by left. }
  destruct (IsDir info && _)%bool; [injection H as <- <-; by left|].
  destruct (negb (IsDir info)); [|injection H as <- <-; by left].
  destruct (ReadFile filePath) as [content|e];
    injection H as <- <-; [left|by right].
  intros p. simpl. rewrite elem_of_app, list_elem_of_singleton.
  destruct (decide (p = Rel filePath)) as [->|Hne].
  - rewrite lookup_insert_eq. split; [by eexists|by right].
  - rewrite lookup_insert_ne by done. rewrite (Hst p). tauto.
Qed.

Lemma Walk_scan_inventoried gitignore root st r :
  Walk (scanFn gitignore) root emptyScan = (st, r) ->
  inventoried st \/ failure r.
Proof.
  apply (Walk_invariant (scanFn gitignore) (fun _ _ => True) inventoried failure);
    simpl; auto.
  - intros path n info err s s' r' _. apply scanFn_inventoried.
  - intros p. simpl. rewrite lookup_empty, elem_of_nil.
    split; [done|]. by intros [? ?].
Qed.

(** ** Unfolding a run of [getRepoDetails] *)

Lemma Walk_no_SkipDir {S : Type} (fn : WalkFunc S) root s :
  snd (Walk fn root s) <> WSkipDir.
Proof.
  unfold Walk.
  destruct (match Lstat root with Err e => _ | Ok _ => _ end) as [s1 err].
  by destruct err.
Qed.

Lemma getRepoDetails_Returned gp r root pl fs ep cc :
  getRepoDetails gp r root = Returned (pl, fs, ep, cc) ->
  exists gi st,
    readGitignore gp root = Ok gi /\
    Walk (scanFn gi) root emptyScan = (st, WNil) /\
    fs = fileStructure st /\ cc = currentCode st /\
    snd (Walk tallyFn root ∅) <> WPanic /\
    pl = fst (selectPrimary (r (map_to_list (tally root)))) /\
    ep = entryPointOf pl.
Proof.
  unfold getRepoDetails, tally. intros H.
  destruct (readGitignore gp root) as [gi|e]; [|discriminate].
  exists gi.
  pose proof (Walk_no_SkipDir (scanFn gi) root emptyScan) as Hns.
  destruct (Walk (scanFn gi) root emptyScan) as [st err]. exists st.
  destruct (Walk tallyFn root ∅) as [langs err2]; simpl in *.
  destruct (selectPrimary (r (map_to_list langs))) as [pl' mx] eqn:Hsel.
  destruct err; try discriminate; try (by destruct Hns);
    destruct err2; try discriminate; injection H as <- <- <- <-;
    repeat split; done.
Qed.

Lemma getRepoDetails_Failed_gitignore gp r root e :
  readGitignore gp root = Err e -> getRepoDetails gp r root = Failed e.
Proof. unfold getRepoDetails. by intros ->. Qed.

(** ** Relative paths as strings *)

Lemma append_cons (x : ascii) (a b : string) :
  String x a +:+ b = String x (a +:+ b).
Proof. done. Qed.

Lemma append_nil_l (a : string) : "" +:+ a = a.
Proof. done. Qed.


Lemma append_assoc (a b c : string) : (a +:+ b) +:+ c = a +:+ (b +:+ c).
Proof.
  induction a as [|x a IH]; [done|]. by rewrite !append_cons, IH.
Qed.

Lemma append_nil_r (a : string) : a +:+ "" = a.
Proof. induction a as [|x a IH]; [done|]. by rewrite append_cons, IH. Qed.

Lemma hasSeparator_app (a b : string) :
  hasSeparator (a +:+ b) = hasSeparator a || hasSeparator b.
Proof.
  induction a as [|x a IH]; [done|].
  rewrite append_cons. simpl. rewrite IH. by destruct (Ascii.eqb x slash).
Qed.

Lemma hasSeparator_slash (a b : string) : hasSeparator (a +:+ "/" +:+ b) = true.
Proof.
  rewrite hasSeparator_app, append_cons. simpl. by rewrite orb_true_r.
Qed.


Lemma concat_cons2 (sep x y : string) (l : list string) :
  String.concat sep (x :: y :: l) = x +:+ sep +:+ String.concat sep (y :: l).
Proof. done. Qed.

Lemma concat_app (pre post : list string) :
  pre <> [] -> post <> [] ->
  String.concat "/" (pre ++ post)
  = String.concat "/" pre +:+ "/" +:+ String.concat "/" post.
Proof.
  intros Hpre Hpost. induction pre as [|x pre IH]; [done|].
  destruct pre as [|y pre].
  - destruct post as [|z post]; [done|]. done.
  - change ((x :: y :: pre) ++ post)%list with (x :: y :: (pre ++ post))%list.
    rewrite !concat_cons2.
    change (y :: (pre ++ post))%list with ((y :: pre) ++ post)%list.
    rewrite IH by done. by rewrite !append_assoc.
Qed.





(** ** The first walk stays out of pruned directories *)








(** ** Claims about the inventory *)





(** C2. After a successful scan the set of paths in fileStructure is the set
    of keys of currentCode. *)
Theorem fileStructure_is_currentCode_keys gp r root pl fs ep cc :
  getRepoDetails gp r root = Returned (pl, fs, ep, cc) ->
  list_to_set fs =@{gset string} dom cc.
Proof.
  intros Hrun.
  apply getRepoDetails_Returned in Hrun as (gi & st & _ & Hwalk & -> & -> & _).
  destruct (Walk_scan_inventoried _ _ _ _ Hwalk) as [Hinv|[]].
  apply set_eq. intros p.
  rewrite elem_of_list_to_set, elem_of_dom. apply Hinv.
Qed.

Lemma fileStructure_is_currentCode_keys_witness :
  list_to_set sampleFiles =@{gset string} dom sampleCode.
Proof.
  apply (fileStructure_is_currentCode_keys plainPattern forwards sampleRepo
           ".go" sampleFiles "main.go" sampleCode).
  vm_compute; reflexivity.
Defined.

(** ** The choice of the primary language *)

Lemma selectPrimary_fold entries :
  selectPrimary entries = fold_left selectStep entries ("", 0).
Proof.
  unfold selectPrimary. generalize ("", 0).
  induction entries as [|[lang count] entries IH]; intros [pl mx]; [done|].
  simpl. rewrite IH. done.
Qed.

Lemma fold_selectStep entries : forall acc,
    let res := fold_left selectStep entries acc in
    snd acc <= snd res
    /\ (forall e, e ∈ entries -> snd e <= snd res)
    /\ (res = acc \/ (snd acc < snd res /\ res ∈ entries)).
Proof.
  induction entries as [|e entries IH]; intros acc; simpl.
  - split; [lia|]. split; [|by left]. intros e He. by apply elem_of_nil in He.
  - destruct (IH (selectStep acc e)) as (Hle & Hall & Hres).
    assert (Hstep : snd acc <= snd (selectStep acc e)
                    /\ snd e <= snd (selectStep acc e)
                    /\ (selectStep acc e = acc
                        \/ (snd acc < snd e /\ selectStep acc e = e))).
    { unfold selectStep. destruct (Z.gtb_spec (snd e) (snd acc)).
      - repeat split; try lia. right. split; [lia|done].
      - repeat split; try lia. by left. }
    destruct Hstep as (H1 & H2 & H3).
    split; [lia|]. split.
    + intros e' He'. apply elem_of_cons in He' as [->|He']; [lia|by apply Hall].
    + destruct Hres as [->|[Hlt Hin]].
      * destruct H3 as [->|[Hlt ->]]; [by left|].
        right. split; [done|by left].
      * right. split; [lia|by right].
Qed.

(** The loop returns an entry of maximal count, or its initial values when
    no count is positive. *)
Lemma selectPrimary_spec entries :
  let res := selectPrimary entries in
  (forall e, e ∈ entries -> snd e <= snd res)
  /\ (res = ("", 0) \/ (0 < snd res /\ res ∈ entries)).
Proof.
  rewrite selectPrimary_fold.
  destruct (fold_selectStep entries ("", 0)) as (_ & Hall & Hres).
  split; [exact Hall|exact Hres].
Qed.

Lemma elem_of_range {V : Type} (r : MapRange V) (m : gmap string V) k v :
  valid_range r -> (k, v) ∈ r (map_to_list m) <-> m !! k = Some v.
Proof. intros Hr. rewrite (Hr (map_to_list m)). apply elem_of_map_to_list. Qed.

(** Over a map, whatever the order of the range. *)
Lemma selectPrimary_map (r : MapRange Z) (langs : gmap string Z) :
  valid_range r ->
  let res := selectPrimary (r (map_to_list langs)) in
  (res = ("", 0) /\ forall ext c, langs !! ext = Some c -> c <= 0)
  \/ (0 < snd res /\ langs !! fst res = Some (snd res)
      /\ forall ext c, langs !! ext = Some c -> c <= snd res).
Proof.
  intros Hr res.
  destruct (selectPrimary_spec (r (map_to_list langs))) as [Hall Hres].
  fold res in Hall, Hres.
  assert (Hmax : forall ext c, langs !! ext = Some c -> c <= snd res).
  { intros ext c Hc. apply (Hall (ext, c)). by apply elem_of_range. }
  destruct Hres as [Heq|[Hpos Hin]].
  - left. split; [done|]. intros ext c Hc. specialize (Hmax _ _ Hc).
    by rewrite Heq in Hmax.
  - right. split; [done|]. split; [|done].
    apply (elem_of_range r); [done|]. by destruct res.
Qed.

(** An extension that alone has the highest count is chosen by every
    order. *)
Lemma selectPrimary_unique (r : MapRange Z) (langs : gmap string Z) ext c :
  valid_range r ->
  langs !! ext = Some c -> 0 < c ->
  (forall ext' c', langs !! ext' = Some c' -> ext' <> ext -> c' < c) ->
  selectPrimary (r (map_to_list langs)) = (ext, c).
Proof.
  intros Hr Hext Hpos Huniq.
  destruct (selectPrimary_map r langs Hr) as [[_ Hall]|(_ & Hin & Hall)].
  - specialize (Hall _ _ Hext). lia.
  - destruct (selectPrimary (r (map_to_list langs))) as [pl mx]; simpl in *.
    specialize (Hall _ _ Hext).
    destruct (decide (pl = ext)) as [->|Hne]; [congruence|].
    specialize (Huniq _ _ Hin Hne). lia.
Qed.

Lemma getRepoDetails_range gp (r r' : MapRange Z) root :
  fst (selectPrimary (r (map_to_list (tally root))))
  = fst (selectPrimary (r' (map_to_list (tally root)))) ->
  getRepoDetails gp r root = getRepoDetails gp r' root.
Proof.
  unfold getRepoDetails, tally. intros H.
  destruct (readGitignore gp root) as [gi|e]; [|done].
  destruct (Walk (scanFn gi) root emptyScan) as [st err].
  destruct (Walk tallyFn root ∅) as [langs err2]; simpl in H.
  destruct (selectPrimary (r (map_to_list langs))) as [pl mx].
  destruct (selectPrimary (r' (map_to_list langs))) as [pl' mx'].
  simpl in H. by subst pl'.
Qed.

Lemma valid_range_forwards {V : Type} : valid_range (@forwards V).
Proof. by intros l. Qed.

Lemma valid_range_backwards {V : Type} : valid_range (@backwards V).
Proof. intros l. unfold backwards. apply Permutation_sym, Permutation_rev. Qed.

(** ** Claims about the primary language and the entry point *)

(** C4, as the code has it. The primary language a successful scan returns
    is an extension of maximal tally (the empty string when no file is
    tallied), whatever the order of the range over the tally map; and when
    that extension alone has the maximal tally, a run with any other order
    returns the same result. *)
Theorem primary_language_is_a_maximum gp r root pl fs ep cc :
  valid_range r ->
  getRepoDetails gp r root = Returned (pl, fs, ep, cc) ->
  ((pl = "" /\ forall ext c, tally root !! ext = Some c -> c <= 0)
   \/ exists m, 0 < m /\ tally root !! pl = Some m
                /\ forall ext c, tally root !! ext = Some c -> c <= m)
  /\ forall r',
      valid_range r' ->
      (forall ext c m, tally root !! pl = Some m ->
                       tally root !! ext = Some c -> ext <> pl -> c < m) ->
      getRepoDetails gp r' root = Returned (pl, fs, ep, cc).
Proof.
  intros Hr Hrun.
  pose proof Hrun as Hrun'.
  apply getRepoDetails_Returned in Hrun' as (gi & st & _ & _ & _ & _ & _ & Hpl & _).
  pose proof (selectPrimary_map r (tally root) Hr) as Hsel.
  simpl in Hsel. rewrite <- Hpl in Hsel.
  split.
  - destruct Hsel as [[Heq Hall]|(Hpos & Hin & Hall)].
    + left. split; [|done]. by rewrite Hpl, Heq.
    + right. eauto.
  - intros r' Hr' Huniq. rewrite <- Hrun. apply getRepoDetails_range.
    rewrite <- Hpl.
    destruct Hsel as [[Heq Hall]|(Hpos & Hin & Hall)].
    + destruct (selectPrimary_map r' (tally root) Hr')
        as [[-> _]|(Hpos' & Hin' & _)].
      * by rewrite Hpl, Heq.
      * specialize (Hall _ _ Hin'). lia.
    + rewrite (selectPrimary_unique r' (tally root) pl _ Hr' Hin Hpos); [done|].
      intros ext' c' Hc' Hne. by apply (Huniq ext' c' _ Hin).
Qed.

Lemma primary_language_is_a_maximum_witness :
  exists m, 0 < m /\ tally countsRepo !! ".go" = Some m
            /\ forall ext c, tally countsRepo !! ext = Some c -> c <= m.
Proof.
  destruct (primary_language_is_a_maximum plainPattern forwards countsRepo
              ".go" countsFiles "main.go" countsCode)
    as [[[Hempty _]|Hmax] _].
  - intros l; reflexivity.
  - vm_compute; reflexivity.
  - discriminate Hempty.
  - exact Hmax.
Defined.

(** C4, as stated, fails: over one and the same tree, whose two extensions
    tie, two orders of the range return different primary languages. *)
Lemma primary_language_depends_on_range :
  valid_range (@forwards Z) /\ valid_range (@backwards Z)
  /\ getRepoDetails plainPattern forwards tieRepo
     = Returned (".go", ["a.go"; "b.md"], "main.go", tieCode)
  /\ getRepoDetails plainPattern backwards tieRepo
     = Returned (".md", ["a.go"; "b.md"], "main.md", tieCode).
Proof.
  split; [apply valid_range_forwards|].
  split; [apply valid_range_backwards|].
  split; vm_compute; reflexivity.
Qed.

Lemma substring_all (s : string) : substring 0 (String.length s) s = s.
Proof. induction s as [|c s IH]; [done|]. simpl. by rewrite IH. Qed.

(** [strings.TrimPrefix(s, ".")] removes the leading dot, if there is one. *)
Lemma TrimPrefix_dot (s : string) :
  TrimPrefix s "."
  = match s with
    | String c rest => if Ascii.eqb c dot then rest else s
    | EmptyString => ""
    end.
Proof.
  destruct s as [|c s]; [done|]. unfold TrimPrefix.
  change (String.prefix "." (String c s))
    with (if ascii_dec "." c then String.prefix "" s else false).
  destruct (ascii_dec "." c) as [<-|Hne].
  - replace (String.prefix "" s) with true by (by destruct s).
    simpl. rewrite Nat.sub_0_r. apply substring_all.
  - destruct (Ascii.eqb_spec c dot) as [->|_]; [by destruct Hne|done].
Qed.

(** C6. The entry point of every successful scan is "main" followed by "."
    followed by the primary language without its leading dot; and for the
    tally {.go: 5, .md: 2, .json: 1}, under every order of the range, the
    primary language is ".go" and the entry point "main.go" (also for a tree
    with that tally). *)
Theorem entry_point_follows_primary_language :
  (forall gp r root pl fs ep cc,
      getRepoDetails gp r root = Returned (pl, fs, ep, cc) ->
      ep = "main" +:+ "." +:+ TrimPrefix pl "."
      /\ TrimPrefix pl "."
         = match pl with
           | String c rest => if Ascii.eqb c dot then rest else pl
           | EmptyString => ""
           end)
  /\ (forall r : MapRange Z,
         valid_range r ->
         fst (selectPrimary (r (map_to_list countsTally))) = ".go"
         /\ entryPointOf ".go" = "main.go"
         /\ getRepoDetails plainPattern r countsRepo
            = Returned (".go", countsFiles, "main.go", countsCode)).
Proof.
  split.
  - intros gp r root pl fs ep cc Hrun.
    apply getRepoDetails_Returned in Hrun as (_ & _ & _ & _ & _ & _ & _ & _ & ->).
    split; [done|apply TrimPrefix_dot].
  - intros r Hr.
    assert (Hsel : selectPrimary (r (map_to_list countsTally)) = (".go", 5)).
    { apply selectPrimary_unique; [done|done|lia|].
      intros ext' c' Hc' Hne. unfold countsTally in Hc'.
      rewrite lookup_insert_ne in Hc' by done.
      apply lookup_insert_Some in Hc' as [[_ <-]|[_ Hc']]; [lia|].
      apply lookup_insert_Some in Hc' as [[_ <-]|[_ Hc']]; [lia|].
      by rewrite lookup_empty in Hc'. }
    split; [by rewrite Hsel|]. split; [done|].
    rewrite <- (getRepoDetails_range plainPattern forwards r countsRepo).
    + vm_compute; reflexivity.
    + replace (tally countsRepo) with countsTally by (vm_compute; reflexivity).
      rewrite Hsel. vm_compute; reflexivity.
Qed.

Lemma entry_point_follows_primary_language_witness :
  "main.go" = "main" +:+ "." +:+ TrimPrefix ".go" "."
  /\ fst (selectPrimary (backwards (map_to_list countsTally))) = ".go".
Proof.
  split.
  - apply (proj1 entry_point_follows_primary_language plainPattern forwards
             countsRepo ".go" countsFiles "main.go" countsCode).
    vm_compute; reflexivity.
  - apply (proj2 entry_point_follows_primary_language backwards).
    intros l. unfold backwards. apply Permutation_sym, Permutation_rev.
Defined.

(** ** A tree without files *)

Section DirsOnly.
Context {S : Type} (fn : WalkFunc S).
Hypothesis fn_dir : forall path name entries s,
    exists r,
      fn {| elems := path; target := Dir name None entries |}
         (Some {| Name := name; IsDir := true |}) None s = (s, r)
      /\ ~ failure r.

Lemma walkNames_dirsOnly path entries :
  Forall (fun c => dirsOnly c = true ->
                   forall path s, exists r,
                       walk fn path c s = (s, r) /\ ~ failure r) entries ->
  forallb dirsOnly entries = true ->
  forall s, walkNames fn (walk fn) path entries s = (s, WNil).
Proof.
  induction 1 as [|c rest Hc _ IH]; intros Hall s; [done|].
  simpl in Hall. apply andb_true_iff in Hall as [Hd Hrest].
  simpl. destruct c as [|name [e|] entries|]; try discriminate.
  simpl. destruct (Hc Hd (path ++ [name])%list s) as (r & Hw & Hr).
  simpl in Hw. rewrite Hw.
  destruct r; simpl in Hr; try (by destruct Hr); by apply IH.
Qed.

Lemma walk_dirsOnly n :
  dirsOnly n = true ->
  forall path s, exists r, walk fn path n s = (s, r) /\ ~ failure r.
Proof.
  induction n as [name content|name readdir entries IH|name e]
    using node_nested_ind; intros Hd path s; try discriminate.
  destruct readdir as [e|]; [discriminate|]. simpl in Hd. simpl.
  destruct (fn_dir path name entries s) as (r & -> & Hr).
  destruct r; try (by eexists); try (by destruct Hr).
  exists WNil. split; [|by intros []].
  by apply walkNames_dirsOnly.
Qed.

Lemma Walk_dirsOnly root s :
  dirsOnly root = true -> Walk fn root s = (s, WNil).
Proof.
  intros Hd. unfold Walk.
  destruct (walk_dirsOnly root Hd [] s) as (r & Hw & Hr).
  destruct root as [|name [e|] entries|]; try discriminate.
  simpl in *. rewrite Hw. destruct r; try done; by destruct Hr.
Qed.
End DirsOnly.

(** C10. Scanning a tree that holds no file (listable directories only),
    once the ignore-spec step has not failed, succeeds with the empty string
    as primary language, "main." as entry point, and an empty fileStructure
    and currentCode. *)
Theorem scan_of_tree_without_files gp r root gi :
  valid_range r ->
  dirsOnly root = true ->
  readGitignore gp root = Ok gi ->
  tally root = ∅
  /\ getRepoDetails gp r root = Returned ("", [], "main.", ∅).
Proof.
  intros Hr Hd Hgi.
  assert (Ht : Walk tallyFn root ∅ = (∅, WNil)).
  { apply Walk_dirsOnly; [|done]. intros path name entries s.
    exists WNil. split; [done|by intros []]. }
  assert (Hs : Walk (scanFn gi) root emptyScan = (emptyScan, WNil)).
  { apply Walk_dirsOnly; [|done]. intros path name entries s.
    unfold scanFn; simpl. destruct (matched gi _).
    - exists WSkipDir. split; [done|by intros []].
    - destruct (String.eqb name ".git").
      + exists WSkipDir. split; [done|by intros []].
      + exists WNil. split; [done|by intros []]. }
  split; [unfold tally; by rewrite Ht|].
  unfold getRepoDetails. rewrite Hgi, Hs, Ht.
  rewrite map_to_list_empty.
  pose proof (Hr []) as Hnil. apply Permutation_nil_r in Hnil.
  rewrite Hnil. done.
Qed.

Lemma scan_of_tree_without_files_witness :
  tally bareRepo = ∅
  /\ getRepoDetails plainPattern forwards bareRepo
     = Returned ("", [], "main.", ∅).
Proof.
  apply (scan_of_tree_without_files plainPattern forwards bareRepo None);
    [intros l; reflexivity | reflexivity | reflexivity].
Defined.

(** ** The second walk *)

(** C3: the code at a tree with version-control metadata. The inventory
    holds [main.go] alone, yet the tally also counts the three files under
    [.git]; their (empty) extension wins, so that the primary language is the
    empty string and the entry point "main.", under every order of the
    range. A tally over the inventory would hold [.go] alone. *)
Theorem tally_counts_files_under_git (r : MapRange Z) :
  valid_range r ->
  getRepoDetails plainPattern r metadataRepo
  = Returned ("", ["main.go"], "main.", mainOnly)
  /\ tally metadataRepo = <["" := 3]> {[".go" := 1]}
  /\ specTally ["main.go"] = {[".go" := 1]}.
Proof.
  intros Hr.
  assert (Ht : tally metadataRepo = <["" := 3]> {[".go" := 1]})
    by (vm_compute; reflexivity).
  split; [|split; [exact Ht|vm_compute; reflexivity]].
  rewrite <- (getRepoDetails_range plainPattern forwards r metadataRepo).
  - vm_compute; reflexivity.
  - rewrite Ht.
    rewrite (selectPrimary_unique r _ "" 3 Hr); [vm_compute; reflexivity|done|lia|].
    intros ext' c' Hc' Hne. rewrite lookup_insert_ne in Hc' by done.
    apply lookup_singleton_Some in Hc' as [_ <-]. lia.
Qed.

Lemma tally_counts_files_under_git_witness :
  getRepoDetails plainPattern backwards metadataRepo
  = Returned ("", ["main.go"], "main.", mainOnly).
Proof.
  apply (tally_counts_files_under_git backwards).
  intros l. unfold backwards. apply Permutation_sym, Permutation_rev.
Defined.

(** What the first walk does with an error: its walk function returns the
    error it is handed and the error of reading a file it lists, and
    [getRepoDetails] returns the error of the walk without a result. *)
Lemma scanFn_returns_its_error gitignore filePath info e st :
  scanFn gitignore filePath info (Some e) st = (st, WErr e).
Proof. done. Qed.

Lemma scanFn_unreadable_file gitignore filePath name e st :
  matched gitignore (Rel filePath) = false ->
  ReadFile filePath = Err e ->
  snd (scanFn gitignore filePath (Some {| Name := name; IsDir := false |})
         None st) = WErr e.
Proof. unfold scanFn. simpl. by intros -> ->. Qed.

Lemma first_walk_error_is_returned gp r root gitignore st e :
  readGitignore gp root = Ok gitignore ->
  Walk (scanFn gitignore) root emptyScan = (st, WErr e) ->
  getRepoDetails gp r root = Failed e.
Proof. unfold getRepoDetails. by intros -> ->. Qed.

(** C5: the code at trees where the second walk meets an error. A directory
    under [.git] that cannot be listed: the walk function of the second walk
    is called with the error, returns nil as for any directory, and the scan
    returns its full result. An entry under [.git] on which [Lstat] fails:
    the second walk function dereferences the nil [info] and the scan
    panics. *)
Theorem second_walk_drops_errors :
  getRepoDetails plainPattern forwards lockedRepo
  = Returned (".go", ["main.go"], "main.go", mainOnly)
  /\ snd (fst (Walk (traced tallyFn) lockedRepo (∅, [])))
     = ["."; ".git"; ".git/objects"; "main.go"]
  /\ (forall filePath info e langs,
         tallyFn filePath (Some info) (Some e) langs
         = tallyFn filePath (Some info) None langs)
  /\ getRepoDetails plainPattern forwards brokenRepo = Panicked.
Proof.
  split; [vm_compute; reflexivity|].
  split; [vm_compute; reflexivity|].
  split; [done|vm_compute; reflexivity].
Qed.

(** ** The ignore-spec file *)

(** C8. When the root has an entry [.gitignore] that cannot be opened or
    read (an error other than "does not exist"), or that is a directory, the
    scan fails with that error; when the root has no such entry,
    [readGitignore] returns no rule set and no error. *)
Theorem unreadable_gitignore_is_fatal gp r name readdir entries :
  (forall fname e,
      lookupEntry ".gitignore" entries = Some (File fname (Err e)) ->
      IsNotExist e = false ->
      readGitignore gp (Dir name readdir entries) = Err e
      /\ getRepoDetails gp r (Dir name readdir entries) = Failed e)
  /\ (forall dname derr dentries,
         lookupEntry ".gitignore" entries = Some (Dir dname derr dentries) ->
         getRepoDetails gp r (Dir name readdir entries) = Failed EISDIR)
  /\ (lookupEntry ".gitignore" entries = None ->
      readGitignore gp (Dir name readdir entries) = Ok None).
Proof.
  split; [|split].
  - intros fname e Hl He.
    assert (readGitignore gp (Dir name readdir entries) = Err e) as Hg
      by (simpl; by rewrite Hl, He).
    split; [exact Hg|by apply getRepoDetails_Failed_gitignore].
  - intros dname derr dentries Hl.
    apply getRepoDetails_Failed_gitignore. simpl. by rewrite Hl.
  - intros Hl. simpl. by rewrite Hl.
Qed.

Lemma unreadable_gitignore_is_fatal_witness :
  readGitignore plainPattern sealedRepo = Err EACCES
  /\ getRepoDetails plainPattern forwards sealedRepo = Failed EACCES.
Proof.
  apply (proj1 (unreadable_gitignore_is_fatal plainPattern forwards "repo" None
                  [File ".gitignore" (Err EACCES);
                   File "a.go" (Ok "package main")]) ".gitignore" EACCES);
    reflexivity.
Defined.

(** ** Serialisation *)

#[local] Instance keyLe_trans : Transitive keyLe.
Proof. intros a b c. unfold keyLe. apply transitivity. Qed.

#[local] Instance keyLe_total : Total keyLe.
Proof. intros a b. unfold keyLe. apply total, _. Qed.

Lemma sortedEntries_sorted (r : MapRange string) (m : gmap string string) :
  StronglySorted keyLe (sortedEntries r m).
Proof. apply StronglySorted_merge_sort; apply _. Qed.

Lemma sortedEntries_elem_of (r : MapRange string) (m : gmap string string) kv :
  valid_range r -> kv ∈ sortedEntries r m <-> m !! fst kv = Some (snd kv).
Proof.
  intros Hr. unfold sortedEntries.
  rewrite merge_sort_Permutation, (Hr (map_to_list m)).
  destruct kv. apply elem_of_map_to_list.
Qed.

(** The written order of the entries does not depend on the range. *)
Lemma sortedEntries_range (r1 r2 : MapRange string) (m : gmap string string) :
  valid_range r1 -> valid_range r2 -> sortedEntries r1 m = sortedEntries r2 m.
Proof.
  intros H1 H2.
  apply (StronglySorted_unique_strong keyLe);
    [|apply sortedEntries_sorted..|].
  - intros [k1 v1] [k2 v2] Hin1 Hin2 Hle1 Hle2.
    apply (sortedEntries_elem_of r1 m _ H1) in Hin1.
    apply (sortedEntries_elem_of r2 m _ H2) in Hin2.
    unfold keyLe in *. simpl in *.
    assert (k1 = k2) as -> by (by apply (anti_symm String.le)).
    congruence.
  - unfold sortedEntries.
    by rewrite !merge_sort_Permutation, (H1 (map_to_list m)), (H2 (map_to_list m)).
Qed.

(** C9. Serialising the same ProjectContext twice gives the same bytes: the
    output does not depend on the order in which the map is ranged over; its
    map entries are written in ascending key order, each entry of the map
    once. *)
Theorem MarshalIndent_deterministic quote (r1 r2 : MapRange string) v :
  valid_range r1 -> valid_range r2 ->
  MarshalIndent quote r1 v = MarshalIndent quote r2 v
  /\ StronglySorted keyLe (sortedEntries r1 (CurrentCode v))
  /\ sortedEntries r1 (CurrentCode v) ≡ₚ map_to_list (CurrentCode v).
Proof.
  intros H1 H2. split; [|split].
  - unfold MarshalIndent. by rewrite (sortedEntries_range r1 r2).
  - apply sortedEntries_sorted.
  - unfold sortedEntries. by rewrite merge_sort_Permutation, (H1 _).
Qed.

Lemma MarshalIndent_deterministic_witness :
  MarshalIndent plainQuote forwards sampleContext
  = MarshalIndent plainQuote backwards sampleContext.
Proof.
  apply (MarshalIndent_deterministic plainQuote forwards backwards
           sampleContext).
  - intros l; reflexivity.
  - intros l. unfold backwards. apply Permutation_sym, Permutation_rev.
Defined.

(** ** Two walks over the same entries *)

Section WalkSimulation.
Context {S1 S2 : Type} (fn1 : WalkFunc S1) (fn2 : WalkFunc S2).
(** [Q]: the calls both walks make; [R]: how their states correspond. *)
Variable Q : list string -> node -> Prop.
Variable R : S1 -> S2 -> Prop.
Hypothesis step : forall path n info err s1 s2,
    Q path n -> R s1 s2 ->
    snd (fn1 {| elems := path; target := n |} info err s1)
    = snd (fn2 {| elems := path; target := n |} info err s2)
    /\ R (fst (fn1 {| elems := path; target := n |} info err s1))
         (fst (fn2 {| elems := path; target := n |} info err s2)).
Hypothesis descend : forall path name readdir entries c,
    Q path (Dir name readdir entries) -> c ∈ entries ->
    Q (path ++ [nodeName c]) c.

Lemma walkNames_similar path entries :
  Forall (fun c => forall path s1 s2,
              Q path c -> R s1 s2 ->
              similar R (walk fn1 path c s1) (walk fn2 path c s2)) entries ->
  (forall c, c ∈ entries -> Q (path ++ [nodeName c]) c) ->
  forall s1 s2,
    R s1 s2 ->
    similar R (walkNames fn1 (walk fn1) path entries s1)
            (walkNames fn2 (walk fn2) path entries s2).
Proof.
  induction 1 as [|c rest Hc _ IH]; intros HQ s1 s2 HR; simpl.
  - by split.
  - assert (Qc : Q (path ++ [nodeName c]) c) by (apply HQ; left).
    assert (Qrest : forall c', c' ∈ rest -> Q (path ++ [nodeName c']) c')
      by (intros; apply HQ; by right).
    destruct (Lstat c) as [fileInfo|e].
    + destruct (Hc _ _ _ Qc HR) as [Hr HR1].
      destruct (walk fn1 (path ++ [nodeName c])%list c s1) as [s1' r1].
      destruct (walk fn2 (path ++ [nodeName c])%list c s2) as [s2' r2].
      simpl in Hr, HR1. subst r2.
      destruct r1; try (by split); try (by apply IH).
      destruct (IsDir fileInfo); [by apply IH|by split].
    + destruct (step _ _ None (Some e) _ _ Qc HR) as [Hr HR1].
      destruct (fn1 _ None (Some e) s1) as [s1' r1].
      destruct (fn2 _ None (Some e) s2) as [s2' r2].
      simpl in Hr, HR1. subst r2.
      destruct r1; try (by split); by apply IH.
Qed.

Lemma walk_similar n : forall path s1 s2,
    Q path n -> R s1 s2 ->
    similar R (walk fn1 path n s1) (walk fn2 path n s2).
Proof.
  induction n as [name content|name readdir entries IH|name e]
    using node_nested_ind; intros path s1 s2 HQ HR; simpl.
  - by apply step.
  - destruct (step _ _ (Some {| Name := name; IsDir := true |}) readdir
                _ _ HQ HR) as [Hr HR1].
    destruct (fn1 _ _ readdir s1) as [s1' r1].
    destruct (fn2 _ _ readdir s2) as [s2' r2].
    simpl in Hr, HR1. subst r2.
    destruct readdir; [by split|].
    destruct r1; try (by split).
    apply walkNames_similar; eauto.
  - by apply step.
Qed.

Lemma Walk_similar root s1 s2 :
  Q [] root -> R s1 s2 ->
  similar R (Walk fn1 root s1) (Walk fn2 root s2).
Proof.
  intros HQ HR. unfold Walk.
  assert (H : similar R
                match Lstat root with
                | Err e => fn1 {| elems := []; target := root |} None (Some e) s1
                | Ok _ => walk fn1 [] root s1
                end
                match Lstat root with
                | Err e => fn2 {| elems := []; target := root |} None (Some e) s2
                | Ok _ => walk fn2 [] root s2
                end).
  { destruct (Lstat root); [by apply walk_similar|by apply step]. }
  destruct (match Lstat root with Err e => fn1 _ _ _ _ | Ok _ => _ end)
    as [s1' r1].
  destruct (match Lstat root with Err e => fn2 _ _ _ _ | Ok _ => _ end)
    as [s2' r2].
  destruct H as [Hr HR1]. simpl in Hr, HR1. subst r2.
  destruct r1; by split.
Qed.
End WalkSimulation.

(** The loop over a list of names, cut in two. *)
Lemma walkNames_app {S : Type} (fn : WalkFunc S) w path l1 l2 s :
  walkNames fn w path (l1 ++ l2) s
  = match walkNames fn w path l1 s with
    | (s1, WNil) => walkNames fn w path l2 s1
    | res => res
    end.
Proof.
  revert s. induction l1 as [|c l1 IH]; intros s; simpl; [done|].
  destruct (Lstat c) as [fileInfo|e].
  - destruct (w (path ++ [nodeName c])%list c s) as [s1 r].
    destruct r; simpl; try done; try apply IH.
    destruct (IsDir fileInfo); [apply IH|done].
  - destruct (fn _ None (Some e) s) as [s1 r].
    destruct r; simpl; try done; apply IH.
Qed.

Section WalkInsert.
Context {S1 S2 : Type} (fn1 : WalkFunc S1) (fn2 : WalkFunc S2).

Lemma walkNames_similar_at (R : S1 -> S2 -> Prop) path entries :
  (forall c a b,
      c ∈ entries -> R a b ->
      similar R (walk fn1 (path ++ [nodeName c]) c a)
                (walk fn2 (path ++ [nodeName c]) c b)) ->
  forall s1 s2,
    R s1 s2 ->
    similar R (walkNames fn1 (walk fn1) path entries s1)
              (walkNames fn2 (walk fn2) path entries s2).
Proof.
  induction entries as [|c rest IH]; intros Hsim s1 s2 HR; simpl.
  - by split.
  - assert (Hrest : forall c' a b,
               c' ∈ rest -> R a b ->
               similar R (walk fn1 (path ++ [nodeName c']) c' a)
                         (walk fn2 (path ++ [nodeName c']) c' b))
      by (intros; apply Hsim; [by right|done]).
    destruct (Hsim c s1 s2 (list_elem_of_here _ _) HR) as [Hr HR1].
    destruct c as [name content|name readdir entries|name e]; simpl Lstat;
      cbv iota beta.
    + destruct (walk fn1 _ (File name content) s1) as [s1' r1].
      destruct (walk fn2 _ (File name content) s2) as [s2' r2].
      simpl in Hr, HR1. subst r2.
      destruct r1; try (by split); by apply IH.
    + destruct (walk fn1 _ (Dir name readdir entries) s1) as [s1' r1].
      destruct (walk fn2 _ (Dir name readdir entries) s2) as [s2' r2].
      simpl in Hr, HR1. subst r2.
      destruct r1; try (by split); by apply IH.
    + simpl in Hr, HR1.
      destruct (fn1 _ None (Some e) s1) as [s1' r1].
      destruct (fn2 _ None (Some e) s2) as [s2' r2].
      simpl in Hr, HR1. subst r2.
      destruct r1; try (by split); by apply IH.
Qed.

(** The second walk meets one entry more, [x], which it passes with nil,
    moving from the correspondence [R] to [R']. *)
Lemma walkNames_insert (R R' : S1 -> S2 -> Prop) path l1 l2 x s1 s2 :
  (forall c a b,
      c ∈ l1 -> R a b ->
      similar R (walk fn1 (path ++ [nodeName c]) c a)
                (walk fn2 (path ++ [nodeName c]) c b)) ->
  (forall c a b,
      c ∈ l2 -> R' a b ->
      similar R' (walk fn1 (path ++ [nodeName c]) c a)
                 (walk fn2 (path ++ [nodeName c]) c b)) ->
  (forall a b, R a b ->
               exists b', walkNames fn2 (walk fn2) path [x] b = (b', WNil)
                          /\ R' a b') ->
  R s1 s2 ->
  let A := walkNames fn1 (walk fn1) path (l1 ++ l2) s1 in
  let B := walkNames fn2 (walk fn2) path (l1 ++ x :: l2) s2 in
  snd A = snd B
  /\ ((R (fst A) (fst B) /\ snd A <> WNil) \/ R' (fst A) (fst B)).
Proof.
  intros H1 H2 Hx HR A B. subst A B.
  rewrite !walkNames_app.
  destruct (walkNames_similar_at R path l1 H1 s1 s2 HR) as [Hr HR1].
  destruct (walkNames fn1 (walk fn1) path l1 s1) as [a r1].
  destruct (walkNames fn2 (walk fn2) path l1 s2) as [b r2].
  simpl in Hr, HR1. subst r2.
  destruct r1; try (split; [done|left; by split]).
  change (x :: l2) with ([x] ++ l2)%list. rewrite walkNames_app.
  destruct (Hx a b HR1) as (b' & -> & HR').
  destruct (walkNames_similar_at R' path l2 H2 a b' HR') as [Hr HR2].
  split; [done|by right].
Qed.
End WalkInsert.

(** ** What a walk can return *)

Section WalkResults.
Context {S : Type} (fn : WalkFunc S).

(** Every result of the walk function satisfies [P]. *)
Lemma walk_result (P : werror -> Prop) :
  P WNil ->
  (forall filePath info err s, P (snd (fn filePath info err s))) ->
  forall n path s, P (snd (walk fn path n s)).
Proof.
  intros Hnil Hfn.
  induction n as [name content|name readdir entries IH|name e]
    using node_nested_ind; intros path s; simpl; try apply Hfn.
  pose proof (Hfn {| elems := path; target := Dir name readdir entries |}
                (Some {| Name := name; IsDir := true |}) readdir s) as H0.
  destruct (fn _ _ readdir s) as [s1 err1]. simpl in H0.
  destruct readdir; [done|]. destruct err1; try done.
  clear H0. revert s1.
  induction IH as [|c rest Hc _ IHrest]; intros s1; simpl; [done|].
  destruct (Lstat c) as [fileInfo|e].
  - specialize (Hc (path ++ [nodeName c])%list s1).
    destruct (walk fn (path ++ [nodeName c])%list c s1) as [s2 r].
    simpl in Hc. destruct r; try done; try apply IHrest.
    destruct (IsDir fileInfo); [apply IHrest|done].
  - pose proof (Hfn {| elems := (path ++ [nodeName c])%list; target := c |}
                  None (Some e) s1) as H0.
    destruct (fn _ None (Some e) s1) as [s2 r]. simpl in H0.
    destruct r; try done; apply IHrest.
Qed.

(** A walk function that skips directories only. *)
Hypothesis skips_directories : forall filePath info err s,
    snd (fn filePath info err s) = WSkipDir ->
    exists i, info = Some i /\ IsDir i = true.

Lemma walk_SkipDir n : forall path s,
    snd (walk fn path n s) = WSkipDir ->
    Lstat n = Ok {| Name := nodeName n; IsDir := true |}.
Proof.
  induction n as [name content|name readdir entries IH|name e]
    using node_nested_ind; intros path s; simpl; try done.
  - intros H. by apply skips_directories in H as (i & [= <-] & Hi).
  - intros H. by apply skips_directories in H as (i & [=] & Hi).
Qed.

Lemma walkNames_no_SkipDir path entries : forall s,
    snd (walkNames fn (walk fn) path entries s) <> WSkipDir.
Proof.
  induction entries as [|c rest IH]; intros s; simpl; [done|].
  destruct (Lstat c) as [fileInfo|e] eqn:Hl.
  - pose proof (walk_SkipDir c (path ++ [nodeName c])%list s) as Hc.
    destruct (walk fn (path ++ [nodeName c])%list c s) as [s1 r].
    simpl in Hc. destruct r; try done; try apply IH.
    specialize (Hc eq_refl). rewrite Hl in Hc. injection Hc as ->.
    simpl. apply IH.
  - destruct (fn _ None (Some e) s) as [s1 r].
    destruct r; try done; apply IH.
Qed.
End WalkResults.

Lemma scanFn_skips_directories gitignore filePath info err st :
  snd (scanFn gitignore filePath info err st) = WSkipDir ->
  exists i, info = Some i /\ IsDir i = true.
Proof.
  unfold scanFn. destruct err; [done|]. destruct info as [i|]; [|done].
  destruct (IsDir i) eqn:Hi; [by eexists|].
  destruct (matched gitignore _); [done|]. simpl.
  by destruct (ReadFile filePath).
Qed.

Lemma tallyFn_result filePath info err langs :
  snd (tallyFn filePath info err langs) = WNil
  \/ snd (tallyFn filePath info err langs) = WPanic.
Proof.
  unfold tallyFn. destruct info as [i|]; [|by right].
  destruct (negb (IsDir i)); by left.
Qed.

(** ** An absent and an empty ignore-spec file *)

Lemma matched_emptyRules gp p : matched (emptyRules gp) p = false.
Proof. done. Qed.

Lemma hasSeparator_gitignoreName : hasSeparator gitignoreName = false.
Proof. done. Qed.

Lemma belowRoot_top (c : node) :
  nodeName c <> gitignoreName -> belowRoot ([] ++ [nodeName c]) c.
Proof. intros Hc. by split. Qed.

Lemma belowRoot_descend path name readdir entries c :
  belowRoot path (Dir name readdir entries) -> c ∈ entries ->
  belowRoot (path ++ [nodeName c]) c.
Proof.
  intros [Hne _] _. split; [by destruct path|].
  assert (relPathOf (path ++ [nodeName c])
          = String.concat "/" path +:+ "/" +:+ nodeName c) as ->.
  { unfold relPathOf. destruct (path ++ [nodeName c])%list eqn:E.
    - by destruct path.
    - rewrite <- E. by rewrite concat_app. }
  intros H.
  pose proof (hasSeparator_slash (String.concat "/" path) (nodeName c)) as Hs.
  by rewrite H in Hs.
Qed.

Lemma scanFn_sameButGitignore gp path n info err a b :
  belowRoot path n -> sameButGitignore a b ->
  similar sameButGitignore
    (scanFn None {| elems := path; target := n |} info err a)
    (scanFn (emptyRules gp) {| elems := path; target := n |} info err b).
Proof.
  intros [_ Hrel] [Hfs Hcc]. unfold scanFn, Rel; simpl.
  destruct err; [by repeat split|].
  destruct info as [i|]; [|by repeat split].
  destruct (IsDir i && _)%bool; [by repeat split|].
  destruct (negb (IsDir i)); [|by repeat split].
  destruct (ReadFile _) as [content|e]; (split; [done|]); split; simpl.
  - rewrite filter_app, Hfs, filter_cons_True by done. done.
  - by rewrite delete_insert_ne, Hcc.
  - rewrite filter_app, Hfs, filter_cons_True by done. done.
  - done.
Qed.

Lemma scanFn_listsGitignore gitignore path n info err b :
  belowRoot path n -> listsGitignore b ->
  listsGitignore
    (fst (scanFn gitignore {| elems := path; target := n |} info err b)).
Proof.
  intros [_ Hrel] [Hfs Hcc]. unfold scanFn, Rel; simpl.
  destruct err; [done|]. destruct info as [i|]; [|done].
  destruct (matched gitignore _); [by destruct (IsDir i)|].
  destruct (IsDir i && _)%bool; [done|].
  destruct (negb (IsDir i)); [|done].
  destruct (ReadFile _) as [content|e]; split; simpl;
    try (apply elem_of_app; by left); try done.
  by rewrite lookup_insert_ne.
Qed.

Lemma scanFn_sameAndListed gp path n info err a b :
  belowRoot path n -> sameAndListed a b ->
  similar sameAndListed
    (scanFn None {| elems := path; target := n |} info err a)
    (scanFn (emptyRules gp) {| elems := path; target := n |} info err b).
Proof.
  intros HQ [Hsame Hlists].
  destruct (scanFn_sameButGitignore gp path n info err a b HQ Hsame) as [Hr HR].
  split; [exact Hr|]. split; [exact HR|].
  by apply scanFn_listsGitignore.
Qed.

Lemma increment_comm e1 e2 (m : gmap string Z) :
  increment e1 (increment e2 m) = increment e2 (increment e1 m).
Proof.
  destruct (decide (e1 = e2)) as [->|Hne]; [done|].
  unfold increment.
  rewrite !lookup_insert_ne by done. by apply insert_insert_ne.
Qed.

Lemma tallyFn_countedGitignore path n info err a b :
  countedGitignore a b ->
  similar countedGitignore
    (tallyFn {| elems := path; target := n |} info err a)
    (tallyFn {| elems := path; target := n |} info err b).
Proof.
  unfold countedGitignore, tallyFn. intros ->.
  destruct info as [i|]; [|by split].
  destruct (negb (IsDir i)); split; simpl; try done.
  apply increment_comm.
Qed.

Lemma Walk_Dir {S : Type} (fn : WalkFunc S) name readdir entries s :
  Walk fn (Dir name readdir entries) s
  = let '(s1, err1) :=
      fn {| elems := []; target := Dir name readdir entries |}
         (Some {| Name := name; IsDir := true |}) readdir s in
    match readdir, err1 with
    | None, WNil =>
        let '(s2, r) := walkNames fn (walk fn) [] entries s1 in
        (s2, match r with WSkipDir => WNil | _ => r end)
    | _, _ => (s1, match err1 with WSkipDir => WNil | _ => err1 end)
    end.
Proof.
  unfold Walk. simpl.
  destruct (fn _ _ readdir s) as [s1 err1].
  destruct readdir; [by destruct err1|].
  destruct err1; try done.
  destruct (walkNames fn (walk fn) [] entries s1) as [s2 r]. by destruct r.
Qed.

Lemma scanFn_directory gitignore path n name readdir st :
  scanFn gitignore {| elems := path; target := n |}
    (Some {| Name := name; IsDir := true |}) readdir st
  = (st, match readdir with
         | Some e => WErr e
         | None =>
             if matched gitignore (relPathOf path) then WSkipDir
             else if String.eqb name ".git" then WSkipDir
             else WNil
         end).
Proof.
  unfold scanFn, Rel; simpl. destruct readdir; [done|].
  destruct (matched gitignore _); [done|]. by destruct (String.eqb name ".git").
Qed.

Lemma Walk_scan_insert gp name readdir (l1 l2 : list node) :
  (forall c, c ∈ (l1 ++ l2)%list -> nodeName c <> gitignoreName) ->
  let A := Walk (scanFn None) (Dir name readdir (l1 ++ l2)%list) emptyScan in
  let B := Walk (scanFn (emptyRules gp))
             (Dir name readdir (l1 ++ emptyGitignore :: l2)%list) emptyScan in
  snd A = snd B
  /\ sameButGitignore (fst A) (fst B)
  /\ (snd A = WNil -> name <> ".git" -> listsGitignore (fst B)).
Proof.
  intros Hnames A B. subst A B. rewrite !Walk_Dir, !scanFn_directory.
  destruct readdir as [e|]; [by repeat split|].
  rewrite matched_emptyRules. simpl matched. cbv iota.
  destruct (String.eqb_spec name ".git") as [->|Hname];
    [by repeat split|].
  assert (Hchild : forall c, c ∈ (l1 ++ l2)%list -> belowRoot ([] ++ [nodeName c]) c)
    by (intros c Hc; by apply belowRoot_top, Hnames).
  destruct (walkNames_insert (scanFn None) (scanFn (emptyRules gp))
              sameButGitignore sameAndListed [] l1 l2 emptyGitignore
              emptyScan emptyScan) as [Hr HR].
  - intros c a b Hc HR.
    apply (walk_similar _ _ belowRoot);
      [intros; by apply scanFn_sameButGitignore
      |apply belowRoot_descend | |done].
    apply Hchild, elem_of_app. by left.
  - intros c a b Hc HR.
    apply (walk_similar _ _ belowRoot);
      [intros; by apply scanFn_sameAndListed
      |apply belowRoot_descend | |done].
    apply Hchild, elem_of_app. by right.
  - intros a b [Hfs Hcc]. eexists. split; [reflexivity|].
    split; split; simpl.
    + by rewrite filter_app, Hfs, filter_cons_False, filter_nil, app_nil_r
        by (by intros []).
    + by rewrite delete_insert_eq.
    + apply elem_of_app. right. by left.
    + apply lookup_insert_eq.
  - by split.
  - pose proof (walkNames_no_SkipDir (scanFn None)
                  (scanFn_skips_directories None) [] (l1 ++ l2)%list emptyScan)
      as Hns.
    destruct (walkNames (scanFn None) _ [] (l1 ++ l2)%list emptyScan) as [a r1].
    destruct (walkNames (scanFn (emptyRules gp)) _ [] _ emptyScan) as [b r2].
    simpl in *. subst r2.
    split; [done|]. split.
    + destruct HR as [[HR _]|[HR _]]; exact HR.
    + intros Hnil _. destruct r1; try done.
      destruct HR as [[_ Hne]|[_ HR]]; [done|exact HR].
Qed.

Lemma Walk_tally_insert name (l1 l2 : list node) :
  let A := Walk tallyFn (Dir name None (l1 ++ l2)%list) ∅ in
  let B := Walk tallyFn (Dir name None (l1 ++ emptyGitignore :: l2)%list) ∅ in
  snd A = snd B /\ (snd A <> WPanic -> countedGitignore (fst A) (fst B)).
Proof.
  intros A B. subst A B. rewrite !Walk_Dir. simpl.
  destruct (walkNames_insert tallyFn tallyFn eq countedGitignore [] l1 l2
              emptyGitignore ∅ ∅) as [Hr HR].
  - intros c a b _ <-.
    apply (walk_similar _ _ (fun _ _ => True)); try done.
    by intros path n info err s1 s2 _ <-.
  - intros c a b _ HR.
    apply (walk_similar _ _ (fun _ _ => True)); try done.
    intros path n info err s1 s2 _. apply tallyFn_countedGitignore.
  - intros a b <-. eexists. split; [reflexivity|]. done.
  - done.
  - pose proof (walk_result tallyFn (fun r => r = WNil \/ r = WPanic)
                  (or_introl eq_refl)
                  (fun p i e s => tallyFn_result p i e s)
                  (Dir name None (l1 ++ l2)%list) [] ∅) as Hshape.
    simpl in Hshape.
    destruct (walkNames tallyFn _ [] (l1 ++ l2)%list ∅) as [a r1].
    destruct (walkNames tallyFn _ [] _ ∅) as [b r2].
    simpl in *. subst r2. split; [done|].
    intros Hnp. destruct HR as [[_ Hne]|HR]; [|exact HR].
    destruct r1; try done; by destruct Hshape.
Qed.

Lemma lookupEntry_absent name (entries : list node) :
  (forall c, c ∈ entries -> nodeName c <> name) ->
  lookupEntry name entries = None.
Proof.
  unfold lookupEntry. induction entries as [|c entries IH]; intros H; [done|].
  simpl. destruct (String.eqb_spec (nodeName c) name) as [Heq|_].
  - by destruct (H c (list_elem_of_here _ _)).
  - apply IH. intros c' Hc'. apply H. by right.
Qed.

Lemma lookupEntry_inserted name (l1 l2 : list node) x :
  (forall c, c ∈ l1 -> nodeName c <> name) -> nodeName x = name ->
  lookupEntry name (l1 ++ x :: l2) = Some x.
Proof.
  unfold lookupEntry. intros H Hx.
  induction l1 as [|c l1 IH]; simpl.
  - by rewrite Hx, String.eqb_refl.
  - destruct (String.eqb_spec (nodeName c) name) as [Heq|_].
    + by destruct (H c (list_elem_of_here _ _)).
    + apply IH. intros c' Hc'. apply H. by right.
Qed.

(** On one and the same tree, the rule set of an empty ignore-spec file
    filters as no rule set does. *)
Lemma Walk_scan_emptyRules gp root :
  Walk (scanFn (emptyRules gp)) root emptyScan
  = Walk (scanFn None) root emptyScan.
Proof.
  assert (H : similar eq (Walk (scanFn (emptyRules gp)) root emptyScan)
                         (Walk (scanFn None) root emptyScan)).
  { apply (Walk_similar _ _ (fun _ _ => True)); try done.
    by intros path n info err s1 s2 _ <-. }
  destruct H as [Hr Hs].
  destruct (Walk (scanFn (emptyRules gp)) root emptyScan),
    (Walk (scanFn None) root emptyScan). simpl in *. by subst.
Qed.

(** C7, as the code has it. A root without ignore-spec file and the same
    root with an empty one added: reading the rule set fails in neither
    (none in the first, an empty one in the second, which matches no path and
    filters any tree as no rule set does), and the two scans fail alike or
    succeed alike; when they succeed, fileStructure and currentCode of the
    second are those of the first once the entry of the ignore-spec file is
    removed, the second tally counts the extension of that file once more,
    and, unless the root is pruned itself, the second scan lists the file
    with its empty content. *)
Theorem gitignore_absent_or_empty gp r name readdir (l1 l2 : list node) :
  (forall c, c ∈ (l1 ++ l2)%list -> nodeName c <> gitignoreName) ->
  let absent := Dir name readdir (l1 ++ l2) in
  let empty := Dir name readdir (l1 ++ emptyGitignore :: l2) in
  readGitignore gp absent = Ok None
  /\ readGitignore gp empty = Ok (emptyRules gp)
  /\ (forall p, matched (emptyRules gp) p = false)
  /\ (forall root,
         Walk (scanFn (emptyRules gp)) root emptyScan
         = Walk (scanFn None) root emptyScan)
  /\ match getRepoDetails gp r absent, getRepoDetails gp r empty with
     | Returned (_, fsA, _, ccA), Returned (_, fsB, _, ccB) =>
         filter (fun p => p <> gitignoreName) fsB = fsA
         /\ delete gitignoreName ccB = ccA
         /\ tally empty = increment gitignoreName (tally absent)
         /\ (name <> ".git" ->
             gitignoreName ∈ fsB /\ ccB !! gitignoreName = Some "")
     | Failed e, Failed e' => e = e'
     | Panicked, Panicked => True
     | _, _ => False
     end.
Proof.
  intros Hnames absent empty.
  assert (Habsent : readGitignore gp absent = Ok None).
  { simpl. by rewrite lookupEntry_absent. }
  assert (Hempty : readGitignore gp empty = Ok (emptyRules gp)).
  { simpl. rewrite (lookupEntry_inserted _ _ _ emptyGitignore); [done| |done].
    intros c Hc. apply Hnames, elem_of_app. by left. }
  split; [exact Habsent|]. split; [exact Hempty|].
  split; [apply matched_emptyRules|]. split; [apply Walk_scan_emptyRules|].
  unfold getRepoDetails. rewrite Habsent, Hempty.
  destruct readdir as [e|].
  { subst absent empty. rewrite !Walk_Dir, !scanFn_directory. done. }
  destruct (Walk_scan_insert gp name None l1 l2 Hnames) as (Hr & Hsame & Hlists).
  destruct (Walk_tally_insert name l1 l2) as (Hr2 & Hcount).
  fold absent empty in Hr, Hsame, Hlists, Hr2, Hcount.
  unfold tally.
  pose proof (Walk_no_SkipDir (scanFn None) absent emptyScan) as Hns.
  destruct (Walk (scanFn None) absent emptyScan) as [a r1].
  destruct (Walk (scanFn (emptyRules gp)) empty emptyScan) as [b r2].
  destruct (Walk tallyFn absent ∅) as [la t1].
  destruct (Walk tallyFn empty ∅) as [lb t2].
  simpl in *. subst r2 t2.
  destruct (selectPrimary (r (map_to_list la))) as [plA mA].
  destruct (selectPrimary (r (map_to_list lb))) as [plB mB].
  destruct Hsame as [Hfs Hcc].
  destruct r1; try done; destruct t1; try done;
    (split; [exact Hfs|]; split; [exact Hcc|]; split;
     [by apply Hcount|by apply Hlists]).
Qed.

Lemma gitignore_absent_or_empty_witness :
  readGitignore plainPattern plainRepo = Ok None
  /\ readGitignore plainPattern plainRepoWithGitignore
     = Ok (emptyRules plainPattern).
Proof.
  destruct (gitignore_absent_or_empty plainPattern forwards "repo" None
              [Dir ".git" None [File "HEAD" (Ok "ref: refs/heads/main")]]
              [File "a.go" (Ok "package main");
               File "b.go" (Ok "package main")])
    as (Habsent & Hempty & _).
  - intros c Hc. vm_compute in Hc.
    repeat (apply elem_of_cons in Hc as [->|Hc]; [discriminate|]).
    by apply elem_of_nil in Hc.
  - split; [exact Habsent|exact Hempty].
Defined.

(** C7, as stated, fails: adding an empty ignore-spec file to a root changes
    the result of the scan, which lists the file itself. *)
Lemma empty_gitignore_is_listed :
  getRepoDetails plainPattern forwards plainRepo
  = Returned (".go", ["a.go"; "b.go"], "main.go", plainCode)
  /\ getRepoDetails plainPattern forwards plainRepoWithGitignore
     = Returned (".go", [".gitignore"; "a.go"; "b.go"], "main.go",
                 <[".gitignore" := ""]> plainCode)
  /\ getRepoDetails plainPattern forwards plainRepo
     <> getRepoDetails plainPattern forwards plainRepoWithGitignore.
Proof.
  split; [vm_compute; reflexivity|].
  split; [vm_compute; reflexivity|].
  vm_compute. discriminate.
Qed.

(** * Further properties of the scan *)

(** ** The inventory, exactly *)

Lemma walkNames_scan_collected gitignore path entries :
  Forall (fun c => forall path st st' r,
              walk (scanFn gitignore) path c st = (st', r) -> ~ failure r ->
              fileStructure st'
              = (fileStructure st ++ map fst (collected gitignore path c))%list
              /\ currentCode st'
                 = assignAll (collected gitignore path c) (currentCode st))
         entries ->
  forall st st' r,
    walkNames (scanFn gitignore) (walk (scanFn gitignore)) path entries st
    = (st', r) ->
    ~ failure r ->
    fileStructure st'
    = (fileStructure st
       ++ map fst (flat_map (fun c => collected gitignore
                                        (path ++ [nodeName c]) c) entries))%list
    /\ currentCode st'
       = assignAll (flat_map (fun c => collected gitignore
                                         (path ++ [nodeName c]) c) entries)
           (currentCode st).
Proof.
  induction 1 as [|c rest Hc _ IH]; intros st st' r Hw Hr; simpl in Hw.
  - injection Hw as <- <-. simpl. by rewrite app_nil_r.
  - simpl flat_map. rewrite map_app. unfold assignAll. rewrite fold_left_app.
    fold (assignAll (collected gitignore (path ++ [nodeName c]) c)
            (currentCode st)).
    destruct (Lstat c) as [fileInfo|e] eqn:Hl.
    + pose proof (walk_SkipDir (scanFn gitignore)
                    (scanFn_skips_directories gitignore) c
                    (path ++ [nodeName c])%list st) as Hskip.
      destruct (walk (scanFn gitignore) (path ++ [nodeName c])%list c st)
        as [s1 err] eqn:Hwc.
      assert (Hnext : ~ failure err ->
                walkNames (scanFn gitignore) (walk (scanFn gitignore)) path
                  rest s1 = (st', r) ->
                fileStructure st'
                = (fileStructure st
                   ++ map fst (collected gitignore (path ++ [nodeName c]) c)
                   ++ map fst (flat_map (fun c => collected gitignore
                                 (path ++ [nodeName c]) c) rest))%list
                /\ currentCode st'
                   = fold_left (fun m kv => <[fst kv := snd kv]> m)
                       (flat_map (fun c => collected gitignore
                                   (path ++ [nodeName c]) c) rest)
                       (assignAll (collected gitignore (path ++ [nodeName c]) c)
                          (currentCode st))).
      { intros Herr Hrest.
        destruct (Hc _ _ _ _ Hwc Herr) as [Hfs Hcc].
        destruct (IH _ _ _ Hrest Hr) as [Hfs' Hcc'].
        rewrite Hfs', Hfs, Hcc', Hcc. by rewrite app_assoc. }
      destruct err; simpl in Hskip.
      * apply Hnext; [by intros []|exact Hw].
      * specialize (Hskip eq_refl). rewrite Hl in Hskip.
        injection Hskip as ->. simpl in Hw.
        apply Hnext; [by intros []|exact Hw].
      * injection Hw as <- <-. by destruct Hr.
      * injection Hw as <- <-. by destruct Hr.
    + rewrite ?scanFn_returns_its_error in Hw. simpl in Hw.
      injection Hw as <- <-. by destruct Hr.
Qed.

Lemma walk_scan_collected gitignore n : forall path st st' r,
    walk (scanFn gitignore) path n st = (st', r) -> ~ failure r ->
    fileStructure st'
    = (fileStructure st ++ map fst (collected gitignore path n))%list
    /\ currentCode st' = assignAll (collected gitignore path n) (currentCode st).
Proof.
  induction n as [name content|name readdir entries IH|name e]
    using node_nested_ind; intros path st st' r Hw Hr; simpl in Hw.
  - unfold scanFn, Rel in Hw; simpl in Hw. simpl.
    destruct (matched gitignore (relPathOf path)).
    + injection Hw as <- <-. simpl. by rewrite app_nil_r.
    + destruct content as [text|e]; injection Hw as <- <-; [done|].
      by destruct Hr.
  - rewrite scanFn_directory in Hw. simpl.
    destruct readdir as [e|]; [injection Hw as <- <-; by destruct Hr|].
    destruct (matched gitignore (relPathOf path)); simpl.
    { injection Hw as <- <-. simpl. by rewrite app_nil_r. }
    destruct (String.eqb name ".git").
    { injection Hw as <- <-. simpl. by rewrite app_nil_r. }
    simpl in Hw. by apply (walkNames_scan_collected gitignore path entries IH _ _ r).
  - rewrite ?scanFn_returns_its_error in Hw. simpl in Hw.
    injection Hw as <- <-. by destruct Hr.
Qed.

Lemma Walk_scan_collected gi root st :
  Walk (scanFn gi) root emptyScan = (st, WNil) ->
  fileStructure st = map fst (collected gi [] root)
  /\ currentCode st = assignAll (collected gi [] root) ∅.
Proof.
  intros Hwalk. unfold Walk in Hwalk.
  destruct root as [name content|name readdir entries|name e];
    simpl Lstat in Hwalk; cbv iota beta in Hwalk.
  - destruct (walk (scanFn gi) [] (File name content) emptyScan)
      as [s1 err] eqn:Hw.
    assert (~ failure err) as Herr
        by (destruct err; (discriminate || by intros [])).
    destruct (walk_scan_collected gi _ _ _ _ _ Hw Herr) as [Hfs Hcc].
    by destruct err; injection Hwalk as <-.
  - destruct (walk (scanFn gi) [] (Dir name readdir entries) emptyScan)
      as [s1 err] eqn:Hw.
    assert (~ failure err) as Herr
        by (destruct err; (discriminate || by intros [])).
    destruct (walk_scan_collected gi _ _ _ _ _ Hw Herr) as [Hfs Hcc].
    by destruct err; injection Hwalk as <-.
  - rewrite ?scanFn_returns_its_error in Hwalk. simpl in Hwalk. discriminate.
Qed.

(** X1. After a successful scan, fileStructure is the list of the files that
    are neither matched by the rule set nor under a directory that is matched
    or named ".git", in the order of the walk, and currentCode is the result
    of assigning to each of these paths, in that order, the content of its
    file. *)
Theorem scan_collects_unpruned_files gp r root gi pl fs ep cc :
  readGitignore gp root = Ok gi ->
  getRepoDetails gp r root = Returned (pl, fs, ep, cc) ->
  fs = map fst (collected gi [] root)
  /\ cc = assignAll (collected gi [] root) ∅.
Proof.
  intros Hgi Hrun.
  apply getRepoDetails_Returned in Hrun
    as (gi' & st & Hgi' & Hwalk & -> & -> & _).
  rewrite Hgi in Hgi'. injection Hgi' as <-.
  by apply Walk_scan_collected.
Qed.

Lemma scan_collects_unpruned_files_witness :
  sampleFiles = map fst (collected sampleRules [] sampleRepo)
  /\ sampleCode = assignAll (collected sampleRules [] sampleRepo) ∅.
Proof.
  apply (scan_collects_unpruned_files plainPattern forwards sampleRepo
           sampleRules ".go" sampleFiles "main.go" sampleCode);
    [reflexivity | vm_compute; reflexivity].
Defined.

(** ** Which files are listed *)

Lemma assignAll_lookup (entries : list (string * string)) :
  forall (m : gmap string string) p v,
    assignAll entries m !! p = Some v ->
    (p, v) ∈ entries \/ m !! p = Some v.
Proof.
  unfold assignAll.
  induction entries as [|[k w] entries IH]; intros m p v H; simpl in H.
  - by right.
  - apply IH in H as [H|H]; [left; by right|].
    apply lookup_insert_Some in H as [[<- <-]|[_ H]];
      [left; by left|by right].
Qed.

Lemma collected_reaches gitignore n : forall pre p text,
    (p, text) ∈ collected gitignore pre n ->
    exists suf name,
      p = relPathOf (pre ++ suf)
      /\ reaches n suf (File name (Ok text))
      /\ matched gitignore p = false.
Proof.
  induction n as [name content|name readdir entries IH|name e]
    using node_nested_ind; intros pre p text Hin; simpl in Hin.
  - destruct (matched gitignore (relPathOf pre)) eqn:Hm;
      [by apply elem_of_nil in Hin|].
    destruct content as [t|e]; [|by apply elem_of_nil in Hin].
    apply list_elem_of_singleton in Hin as [= -> ->].
    exists [], name. rewrite app_nil_r. repeat split; [constructor|done].
  - destruct (matched gitignore (relPathOf pre) || _)%bool;
      [by apply elem_of_nil in Hin|].
    apply list_elem_of_In, in_flat_map in Hin as (c & Hc & Hin).
    apply list_elem_of_In in Hc, Hin.
    rewrite Forall_forall in IH.
    destruct (IH c Hc _ _ _ Hin) as (suf & fname & -> & Hreach & Hm).
    exists (nodeName c :: suf), fname.
    rewrite <- app_assoc in *. repeat split; [|done].
    by constructor.
  - by apply elem_of_nil in Hin.
Qed.

(** X2. After a successful scan every key of currentCode is the relative
    path of a file of the tree that the rule set does not match, and its
    value is the content of that file. *)
Theorem currentCode_holds_file_contents gp r root gi pl fs ep cc p text :
  readGitignore gp root = Ok gi ->
  getRepoDetails gp r root = Returned (pl, fs, ep, cc) ->
  cc !! p = Some text ->
  exists path name,
    p = relPathOf path
    /\ reaches root path (File name (Ok text))
    /\ matched gi p = false.
Proof.
  intros Hgi Hrun Hp.
  apply getRepoDetails_Returned in Hrun
    as (gi' & st & Hgi' & Hwalk & _ & -> & _).
  rewrite Hgi in Hgi'. injection Hgi' as <-.
  destruct (Walk_scan_collected _ _ _ Hwalk) as [_ Hcc]. rewrite Hcc in Hp.
  apply assignAll_lookup in Hp as [Hp|Hp]; [|by rewrite lookup_empty in Hp].
  by apply (collected_reaches gi root []).
Qed.

Lemma currentCode_holds_file_contents_witness :
  exists path name,
    "lib/x.go" = relPathOf path
    /\ reaches sampleRepo path (File name (Ok "package lib"))
    /\ matched sampleRules "lib/x.go" = false.
Proof.
  apply (currentCode_holds_file_contents plainPattern forwards sampleRepo
           sampleRules ".go" sampleFiles "main.go" sampleCode);
    [reflexivity | vm_compute; reflexivity | vm_compute; reflexivity].
Defined.

Lemma reaches_collected gitignore root suf name text :
  reaches root suf (File name (Ok text)) ->
  forall pre,
    (forall s1 s2 dname readdir entries,
        suf = (s1 ++ s2)%list -> s2 <> [] ->
        reaches root s1 (Dir dname readdir entries) ->
        matched gitignore (relPathOf (pre ++ s1)) = false /\ dname <> ".git") ->
    matched gitignore (relPathOf (pre ++ suf)) = false ->
    (relPathOf (pre ++ suf), text) ∈ collected gitignore pre root.
Proof.
  remember (File name (Ok text)) as f eqn:Hf.
  induction 1 as [n|dname readdir entries c path n Hc Hreach IH];
    intros pre Hway Hm.
  - subst n. simpl. rewrite app_nil_r in *. rewrite Hm. by left.
  - simpl.
    destruct (Hway [] (nodeName c :: path) dname readdir entries)
      as [Hm0 Hname]; [done|done|constructor|].
    rewrite app_nil_r in Hm0. rewrite Hm0.
    apply String.eqb_neq in Hname. rewrite Hname. simpl.
    apply list_elem_of_In, in_flat_map. exists c.
    split; [by apply list_elem_of_In|]. apply list_elem_of_In.
    replace (pre ++ nodeName c :: path)%list
      with ((pre ++ [nodeName c]) ++ path)%list in * by by rewrite <- app_assoc.
    apply IH; [done| |done].
    intros s1 s2 d rd es -> Hs2 Hr.
    destruct (Hway (nodeName c :: s1) s2 d rd es) as [H1 H2];
      [done|done|by constructor|].
    split; [|done]. by rewrite <- app_assoc.
Qed.

(** X3. After a successful scan, every readable file of the tree that the
    rule set does not match and that lies under no directory that is matched
    or named ".git" is listed in fileStructure and is a key of
    currentCode. *)
Theorem unpruned_files_are_listed gp r root gi pl fs ep cc path name text :
  readGitignore gp root = Ok gi ->
  getRepoDetails gp r root = Returned (pl, fs, ep, cc) ->
  reaches root path (File name (Ok text)) ->
  unprunedWay gi root path ->
  matched gi (relPathOf path) = false ->
  relPathOf path ∈ fs /\ is_Some (cc !! relPathOf path).
Proof.
  intros Hgi Hrun Hreach Hway Hm.
  apply getRepoDetails_Returned in Hrun
    as (gi' & st & Hgi' & Hwalk & -> & -> & _).
  rewrite Hgi in Hgi'. injection Hgi' as <-.
  destruct (Walk_scan_inventoried _ _ _ _ Hwalk) as [Hinv|[]].
  destruct (Walk_scan_collected _ _ _ Hwalk) as [Hfs _].
  assert (relPathOf path ∈ fileStructure st) as Hin.
  { rewrite Hfs. apply list_elem_of_In, in_map_iff.
    exists (relPathOf path, text). split; [done|]. apply list_elem_of_In.
    by apply (reaches_collected gi root path name text Hreach []). }
  split; [exact Hin|by apply Hinv].
Qed.

Lemma reaches_nil_inv root n : reaches root [] n -> n = root.
Proof. by inversion 1. Qed.

Lemma reaches_cons_inv root name path n :
  reaches root (name :: path) n ->
  exists dname readdir entries c,
    root = Dir dname readdir entries /\ c ∈ entries /\ nodeName c = name
    /\ reaches c path n.
Proof. inversion 1; subst. by repeat eexists. Qed.

Lemma unpruned_files_are_listed_witness :
  relPathOf ["lib"; "x.go"] ∈ sampleFiles
  /\ is_Some (sampleCode !! relPathOf ["lib"; "x.go"]).
Proof.
  apply (unpruned_files_are_listed plainPattern forwards sampleRepo
           sampleRules ".go" sampleFiles "main.go" sampleCode
           ["lib"; "x.go"] "x.go" "package lib").
  - reflexivity.
  - vm_compute; reflexivity.
  - apply (reaches_entry "repo" None _
             (Dir "lib" None [File "x.go" (Ok "package lib")]) ["x.go"]).
    + do 3 right. left.
    + apply (reaches_entry "lib" None _ (File "x.go" (Ok "package lib")) []).
      * left.
      * constructor.
  - intros s1 s2 name readdir entries Hsplit Hs2 Hreach.
    destruct s1 as [|a [|b s1]].
    + apply reaches_nil_inv in Hreach. unfold sampleRepo in Hreach.
      injection Hreach as -> _ _. by split.
    + injection Hsplit as <- _.
      unfold sampleRepo in Hreach.
      apply reaches_cons_inv in Hreach
        as (dname & rd & es & c & [= <- <- <-] & Hc & Hn & Hreach).
      apply reaches_nil_inv in Hreach as <-.
      repeat (apply elem_of_cons in Hc as [Hc'|Hc];
              [first [discriminate Hc'
                     |injection Hc' as -> -> ->;
                      first [discriminate Hn|by split]]|]).
      by apply elem_of_nil in Hc.
    + destruct s2; [done|]. destruct s1; discriminate.
  - reflexivity.
Defined.

(** ** Errors and panics of the scan *)

(** Every result of the calls a walk makes satisfies [P]. *)
Lemma walk_result_of_calls {S : Type} (fn : WalkFunc S) (P : werror -> Prop) :
  P WNil ->
  (forall filePath i err s, P (snd (fn filePath (Some i) err s))) ->
  (forall filePath e s, P (snd (fn filePath None (Some e) s))) ->
  forall n path s, P (snd (walk fn path n s)).
Proof.
  intros Hnil Hinfo Herr.
  induction n as [name content|name readdir entries IH|name e]
    using node_nested_ind; intros path s; simpl; try done.
  pose proof (Hinfo {| elems := path; target := Dir name readdir entries |}
                {| Name := name; IsDir := true |} readdir s) as H0.
  destruct (fn _ _ readdir s) as [s1 err1]. simpl in H0.
  destruct readdir; [done|]. destruct err1; try done.
  clear H0. revert s1.
  induction IH as [|c rest Hc _ IHrest]; intros s1; simpl; [done|].
  destruct (Lstat c) as [fileInfo|e].
  - specialize (Hc (path ++ [nodeName c])%list s1).
    destruct (walk fn (path ++ [nodeName c])%list c s1) as [s2 r].
    simpl in Hc. destruct r; try done; try apply IHrest.
    destruct (IsDir fileInfo); [apply IHrest|done].
  - pose proof (Herr {| elems := (path ++ [nodeName c])%list; target := c |}
                  e s1) as H0.
    destruct (fn _ None (Some e) s1) as [s2 r]. simpl in H0.
    destruct r; try done; apply IHrest.
Qed.

Lemma walk_scan_no_panic gitignore n path st :
  snd (walk (scanFn gitignore) path n st) <> WPanic.
Proof.
  apply (walk_result_of_calls (scanFn gitignore) (fun r => r <> WPanic));
    [done| |done].
  intros filePath i err s. unfold scanFn.
  destruct err; [done|]. destruct (matched gitignore _).
  - by destruct (IsDir i).
  - destruct (IsDir i && _)%bool; [done|].
    destruct (negb (IsDir i)); [|done]. by destruct (ReadFile filePath).
Qed.

Lemma Walk_scan_no_panic gitignore root st :
  snd (Walk (scanFn gitignore) root st) <> WPanic.
Proof.
  unfold Walk. destruct (Lstat root) as [i|e].
  - pose proof (walk_scan_no_panic gitignore root [] st) as H.
    destruct (walk (scanFn gitignore) [] root st) as [s1 err].
    by destruct err.
  - done.
Qed.

(** The loop of a first walk stops with an error at the latest at an entry
    whose walk returns one. *)
Lemma walkNames_scan_error gitignore path entries c :
  c ∈ entries ->
  (forall st, exists e,
      snd (walk (scanFn gitignore) (path ++ [nodeName c]) c st) = WErr e) ->
  forall st, exists e,
    snd (walkNames (scanFn gitignore) (walk (scanFn gitignore)) path entries st)
    = WErr e.
Proof.
  intros Hc Herr.
  induction entries as [|x rest IH]; intros st; [by apply elem_of_nil in Hc|].
  simpl.
  pose proof (walk_SkipDir (scanFn gitignore)
                (scanFn_skips_directories gitignore) x
                (path ++ [nodeName x])%list st) as Hskip.
  pose proof (walk_scan_no_panic gitignore x (path ++ [nodeName x])%list st)
    as Hpanic.
  assert (Hrest : snd (walk (scanFn gitignore) (path ++ [nodeName x]) x st)
                  = WNil
                  \/ snd (walk (scanFn gitignore) (path ++ [nodeName x]) x st)
                     = WSkipDir ->
                  c ∈ rest).
  { intros Hx. apply elem_of_cons in Hc as [->|Hc]; [|done].
    destruct (Herr st) as [e He]. rewrite He in Hx. by destruct Hx. }
  destruct (Lstat x) as [fileInfo|e] eqn:Hl.
  - destruct (walk (scanFn gitignore) (path ++ [nodeName x])%list x st)
      as [s1 r]. simpl in *.
    destruct r; try done.
    + apply IH. apply Hrest. by left.
    + specialize (Hskip eq_refl). rewrite ?Hl in Hskip. injection Hskip as ->.
      simpl. apply IH. apply Hrest. by right.
    + by eexists.
  - by eexists.
Qed.

Lemma walk_scan_faulty gitignore root suf n :
  reaches root suf n ->
  forall pre,
    (forall s1 s2 dname readdir entries,
        suf = (s1 ++ s2)%list -> s2 <> [] ->
        reaches root s1 (Dir dname readdir entries) ->
        matched gitignore (relPathOf (pre ++ s1)) = false /\ dname <> ".git") ->
    faulty gitignore (relPathOf (pre ++ suf)) n ->
    forall st, exists e,
      snd (walk (scanFn gitignore) pre root st) = WErr e.
Proof.
  induction 1 as [n|dname readdir entries c path n Hc Hreach IH];
    intros pre Hway Hfaulty st.
  - rewrite app_nil_r in Hfaulty.
    destruct n as [name [text|e]|name [e|] entries|name e]; simpl in Hfaulty;
      try done; simpl.
    + unfold scanFn, Rel; simpl. rewrite Hfaulty. by eexists.
    + by eexists.
    + by eexists.
  - simpl. rewrite scanFn_directory.
    destruct readdir as [e|]; [by eexists|].
    destruct (Hway [] (nodeName c :: path) dname None entries)
      as [Hm0 Hname]; [done|done|constructor|].
    rewrite app_nil_r in Hm0. rewrite Hm0.
    apply String.eqb_neq in Hname. rewrite Hname.
    apply (walkNames_scan_error gitignore pre entries c Hc).
    replace (pre ++ nodeName c :: path)%list
      with ((pre ++ [nodeName c]) ++ path)%list in * by by rewrite <- app_assoc.
    apply IH; [|done].
    intros s1 s2 d rd es -> Hs2 Hr.
    destruct (Hway (nodeName c :: s1) s2 d rd es) as [H1 H2];
      [done|done|by constructor|].
    split; [|done]. by rewrite <- app_assoc.
Qed.

(** X4. When the tree holds, under no directory that is matched or named
    ".git", an unmatched file that cannot be read, a directory that cannot be
    listed or an entry on which Lstat fails, the scan fails with an error
    and returns no result. *)
Theorem fault_on_the_way_fails_the_scan gp r root gi path n :
  readGitignore gp root = Ok gi ->
  reaches root path n ->
  unprunedWay gi root path ->
  faulty gi (relPathOf path) n ->
  exists e, getRepoDetails gp r root = Failed e.
Proof.
  intros Hgi Hreach Hway Hfaulty.
  unfold getRepoDetails. rewrite Hgi.
  assert (Herr : exists e, snd (Walk (scanFn gi) root emptyScan) = WErr e).
  { unfold Walk. destruct (Lstat root) as [i|e] eqn:Hl.
    - destruct (walk_scan_faulty gi root path n Hreach [] Hway Hfaulty
                  emptyScan) as [e He].
      destruct (walk (scanFn gi) [] root emptyScan) as [s1 err].
      simpl in He. subst err. by eexists.
    - by eexists. }
  destruct Herr as [e He].
  destruct (Walk (scanFn gi) root emptyScan) as [st err]. simpl in He.
  subst err. by eexists.
Qed.

Lemma fault_on_the_way_fails_the_scan_witness :
  exists e, getRepoDetails plainPattern forwards unreadableRepo = Failed e.
Proof.
  apply (fault_on_the_way_fails_the_scan plainPattern forwards unreadableRepo
           None ["lib"; "x.go"] (File "x.go" (Err EACCES))).
  - reflexivity.
  - apply (reaches_entry "repo" None _
             (Dir "lib" None [File "x.go" (Err EACCES)]) ["x.go"]).
    + right. left.
    + apply (reaches_entry "lib" None _ (File "x.go" (Err EACCES)) []).
      * left.
      * constructor.
  - intros s1 s2 name readdir entries Hsplit Hs2 Hreach. split; [done|].
    destruct s1 as [|a [|b s1]].
    + apply reaches_nil_inv in Hreach. unfold unreadableRepo in Hreach.
      by injection Hreach as -> _ _.
    + injection Hsplit as <- _. unfold unreadableRepo in Hreach.
      apply reaches_cons_inv in Hreach
        as (dname & rd & es & c & [= <- <- <-] & Hc & Hn & Hreach).
      apply reaches_nil_inv in Hreach as <-.
      repeat (apply elem_of_cons in Hc as [Hc'|Hc];
              [first [discriminate Hc'
                     |injection Hc' as -> -> ->;
                      first [discriminate Hn|done]]|]).
      by apply elem_of_nil in Hc.
    + destruct s2; [done|]. destruct s1; discriminate.
  - reflexivity.
Defined.

Lemma walk_tally_lstatOk n : forall path langs,
    lstatOk n = true -> snd (walk tallyFn path n langs) = WNil.
Proof.
  induction n as [name content|name readdir entries IH|name e]
    using node_nested_ind; intros path langs Hok; simpl; try done.
  destruct readdir; [done|]. simpl in Hok.
  revert langs. induction IH as [|c rest Hc _ IHrest]; intros langs; [done|].
  simpl in Hok. apply andb_true_iff in Hok as [Hc1 Hrest].
  simpl. specialize (Hc (path ++ [nodeName c])%list langs Hc1).
  destruct c as [cname content|cname rd es|cname e]; try discriminate;
    simpl Lstat; cbv iota beta.
  - destruct (walk tallyFn _ (File cname content) langs) as [s1 r].
    simpl in Hc. subst r. by apply IHrest.
  - destruct (walk tallyFn _ (Dir cname rd es) langs) as [s1 r].
    simpl in Hc. subst r. by apply IHrest.
Qed.

(** X5. On a tree where Lstat succeeds on every entry, getRepoDetails does
    not panic: the only nil dereference is that of a file information the
    second walk function receives after a failed Lstat. *)
Theorem no_panic_when_lstat_succeeds gp r root :
  lstatOk root = true -> getRepoDetails gp r root <> Panicked.
Proof.
  intros Hok. unfold getRepoDetails.
  destruct (readGitignore gp root) as [gi|e]; [|done].
  pose proof (Walk_scan_no_panic gi root emptyScan) as H1.
  destruct (Walk (scanFn gi) root emptyScan) as [st err]. simpl in H1.
  assert (H2 : snd (Walk tallyFn root ∅) = WNil).
  { unfold Walk. destruct root as [name content|name rd es|name e];
      try discriminate; simpl Lstat; cbv iota beta.
    - pose proof (walk_tally_lstatOk (File name content) [] ∅ Hok) as H.
      destruct (walk tallyFn [] (File name content) ∅) as [s1 res].
      simpl in H. by subst res.
    - pose proof (walk_tally_lstatOk (Dir name rd es) [] ∅ Hok) as H.
      destruct (walk tallyFn [] (Dir name rd es) ∅) as [s1 res].
      simpl in H. by subst res. }
  destruct (Walk tallyFn root ∅) as [langs err2]. simpl in H2. subst err2.
  destruct (selectPrimary (r (map_to_list langs))) as [pl mx].
  by destruct err.
Qed.

Lemma no_panic_when_lstat_succeeds_witness :
  getRepoDetails plainPattern forwards lockedRepo <> Panicked
  /\ lstatOk lockedRepo = true.
Proof.
  split; [|reflexivity].
  apply (no_panic_when_lstat_succeeds plainPattern forwards lockedRepo).
  reflexivity.
Defined.

(** ** The tally, exactly *)

Lemma walk_tally_tallied n : forall path langs,
    lstatOk n = true ->
    walk tallyFn path n langs
    = (fold_left (fun m name => increment (Ext name) m) (tallied n) langs,
       WNil).
Proof.
  induction n as [name content|name readdir entries IH|name e]
    using node_nested_ind; intros path langs Hok; simpl; try done.
  destruct readdir; [done|]. simpl in Hok.
  revert langs. induction IH as [|c rest Hc _ IHrest]; intros langs; [done|].
  simpl in Hok. apply andb_true_iff in Hok as [Hc1 Hrest].
  simpl. rewrite fold_left_app.
  specialize (Hc (path ++ [nodeName c])%list langs Hc1).
  destruct c as [cname content|cname rd es|cname e]; try discriminate;
    simpl Lstat; cbv iota beta; rewrite Hc; by apply IHrest.
Qed.

Lemma wrap64_small (x : Z) : - 2 ^ 63 <= x < 2 ^ 63 -> wrap64 x = x.
Proof. intros H. unfold wrap64. rewrite Z.mod_small; lia. Qed.

Lemma countOf_increment ext e (m : gmap string Z) :
  countOf (increment ext m) e
  = if decide (e = ext) then wrap64 (countOf m ext + 1) else countOf m e.
Proof.
  unfold countOf, increment. case_decide as H.
  - subst e. by rewrite lookup_insert_eq.
  - by rewrite lookup_insert_ne.
Qed.

Lemma occurrences_cons ext name names :
  occurrences ext (name :: names)
  = ((if decide (Ext name = ext) then 1 else 0) + occurrences ext names)%nat.
Proof.
  unfold occurrences. rewrite filter_cons. by case_decide.
Qed.

Lemma occurrences_le ext names : (occurrences ext names <= length names)%nat.
Proof. apply length_filter. Qed.

Lemma fold_increment_counts (names : list string) :
  forall m : gmap string Z,
    (forall e, 0 <= countOf m e) ->
    (forall e, countOf m e + Z.of_nat (length names) < 2 ^ 63) ->
    forall e,
      countOf (fold_left (fun m name => increment (Ext name) m) names m) e
      = countOf m e + Z.of_nat (occurrences e names).
Proof.
  induction names as [|name names IH]; intros m Hpos Hbound e.
  - simpl. unfold occurrences. simpl. lia.
  - simpl fold_left. simpl length in Hbound.
    assert (Hstep : forall e', countOf (increment (Ext name) m) e'
                    = countOf m e'
                      + (if decide (Ext name = e') then 1 else 0)).
    { intros e'. rewrite countOf_increment.
      destruct (decide (e' = Ext name)) as [->|Hne].
      - rewrite decide_True by done. apply wrap64_small.
        specialize (Hpos (Ext name)). specialize (Hbound (Ext name)). lia.
      - rewrite decide_False by done. lia. }
    rewrite IH.
    + rewrite Hstep, occurrences_cons. case_decide; lia.
    + intros e'. rewrite Hstep. specialize (Hpos e'). case_decide; lia.
    + intros e'. rewrite Hstep. specialize (Hbound e'). case_decide; lia.
Qed.

(** X6. On a tree where Lstat succeeds on every entry, the tally is made
    over every file the unfiltered walk meets, one increment per file and in
    the order of the walk; with fewer than 2^63 files no count wraps around
    and the count of each extension is the number of these files that have
    it. *)
Theorem tally_counts_every_file root :
  lstatOk root = true ->
  tally root = specTally (tallied root)
  /\ (Z.of_nat (length (tallied root)) < 2 ^ 63 ->
      forall ext,
        countOf (tally root) ext = Z.of_nat (occurrences ext (tallied root))).
Proof.
  intros Hok.
  assert (Ht : tally root = specTally (tallied root)).
  { unfold tally, Walk, specTally.
    destruct root as [name content|name rd es|name e]; try discriminate;
      simpl Lstat; cbv iota beta; by rewrite walk_tally_tallied. }
  split; [exact Ht|].
  intros Hlen ext. rewrite Ht. unfold specTally.
  rewrite fold_increment_counts.
  - unfold countOf. rewrite lookup_empty. simpl. lia.
  - intros e. unfold countOf. by rewrite lookup_empty.
  - intros e. unfold countOf. rewrite lookup_empty. simpl. lia.
Qed.

Lemma tally_counts_every_file_witness :
  tally sampleRepo = specTally (tallied sampleRepo)
  /\ countOf (tally sampleRepo) ".go"
     = Z.of_nat (occurrences ".go" (tallied sampleRepo)).
Proof.
  destruct (tally_counts_every_file sampleRepo eq_refl) as [Ht Hc].
  split; [exact Ht|]. apply Hc. vm_compute. reflexivity.
Defined.

(** ** File extensions *)

Lemma Ext_nonempty_cons c rest :
  Ext rest <> "" -> Ext (String c rest) = Ext rest.
Proof. simpl. by destruct (Ext rest). Qed.

Lemma Ext_empty_cons c rest :
  Ext rest = "" ->
  Ext (String c rest)
  = if hasSeparator rest then ""
    else if Ascii.eqb c dot then String c rest else "".
Proof. simpl. by intros ->. Qed.

Lemma Ext_empty_no_dot (s : string) :
  Ext s = "" -> hasSeparator s = false -> hasDot s = false.
Proof.
  induction s as [|d s IH]; [done|]. intros He Hs.
  simpl in Hs. apply orb_false_iff in Hs as [Hd Hs]. simpl.
  destruct (string_dec (Ext s) "") as [He'|He'].
  - rewrite (Ext_empty_cons _ _ He'), Hs in He.
    destruct (Ascii.eqb d dot); [done|]. by apply IH.
  - by rewrite (Ext_nonempty_cons _ _ He') in He.
Qed.

(** The extension is empty, or a dot followed by characters that are neither
    dots nor separators. *)
Lemma Ext_shape (s : string) :
  Ext s = ""
  \/ exists t, Ext s = String dot t /\ hasDot t = false
               /\ hasSeparator t = false.
Proof.
  induction s as [|c s IH]; [by left|].
  destruct (string_dec (Ext s) "") as [He|He].
  - rewrite (Ext_empty_cons _ _ He).
    destruct (hasSeparator s) eqn:Hs; [by left|].
    destruct (Ascii.eqb_spec c dot) as [->|_]; [|by left].
    right. exists s. split; [done|]. split; [|done].
    by apply Ext_empty_no_dot.
  - rewrite (Ext_nonempty_cons _ _ He). exact IH.
Qed.

Lemma Ext_suffix (s : string) : exists pre, s = pre +:+ Ext s.
Proof.
  induction s as [|c s [pre IH]]; [by exists ""|].
  destruct (string_dec (Ext s) "") as [He|He].
  - rewrite (Ext_empty_cons _ _ He).
    destruct (hasSeparator s); [exists (String c s); by rewrite append_nil_r|].
    destruct (Ascii.eqb c dot); [by exists ""|].
    exists (String c s). by rewrite append_nil_r.
  - rewrite (Ext_nonempty_cons _ _ He). exists (String c pre).
    by rewrite append_cons, <- IH.
Qed.

Lemma Ext_no_dot (t : string) :
  hasDot t = false -> Ext t = "".
Proof.
  induction t as [|c t IH]; [done|]. simpl. intros H.
  apply orb_false_iff in H as [Hc Ht]. rewrite (IH Ht), Hc.
  by destruct (hasSeparator t).
Qed.

Lemma Ext_append (pre t : string) :
  hasDot t = false -> hasSeparator t = false ->
  Ext (pre +:+ String dot t) = String dot t.
Proof.
  intros Hd Hs.
  assert (H0 : Ext (String dot t) = String dot t).
  { rewrite (Ext_empty_cons _ _ (Ext_no_dot _ Hd)), Hs. done. }
  induction pre as [|c pre IH]; [done|].
  rewrite append_cons, Ext_nonempty_cons; [done|]. by rewrite IH.
Qed.

(** X7. filepath.Ext returns a suffix of its argument that is empty or
    starts at a dot and holds no other dot and no separator; a name that
    ends in a dot followed by such characters has that ending as
    extension, and the extension of an extension is itself. *)
Theorem Ext_is_the_last_dotted_suffix (s : string) :
  (exists pre, s = pre +:+ Ext s)
  /\ (Ext s = ""
      \/ exists t, Ext s = String dot t /\ hasDot t = false
                   /\ hasSeparator t = false)
  /\ (forall pre t, hasDot t = false -> hasSeparator t = false ->
                    Ext (pre +:+ String dot t) = String dot t)
  /\ Ext (Ext s) = Ext s.
Proof.
  split; [apply Ext_suffix|]. split; [apply Ext_shape|].
  split; [apply Ext_append|].
  destruct (Ext_shape s) as [->|(t & -> & Hd & Hs)]; [done|].
  by apply (Ext_append "").
Qed.

(** ** The shape of the primary language and of the entry point *)

Lemma Walk_tally_keys root :
  forall ext, is_Some (tally root !! ext) -> exists name, ext = Ext name.
Proof.
  unfold tally.
  destruct (Walk tallyFn root ∅) as [langs res] eqn:Hw. simpl.
  destruct (Walk_invariant tallyFn (fun _ _ => True)
              (fun m : gmap string Z =>
                 forall ext, is_Some (m !! ext) -> exists name, ext = Ext name)
              (fun _ => False)) with
    (root := root) (s := (∅ : gmap string Z)) (s' := langs) (r := res)
    as [H|[]]; auto.
  - intros path n info err s s' res' _ Hs Hf. left.
    unfold tallyFn in Hf. destruct info as [i|]; [|by injection Hf as <- _].
    destruct (negb (IsDir i)); injection Hf as <- _; [|done].
    intros ext Hext. unfold increment in Hext.
    destruct (decide (ext = Ext (Name i))) as [->|Hne]; [by eexists|].
    rewrite lookup_insert_ne in Hext by done. by apply Hs.
  - intros ext Hext. rewrite lookup_empty in Hext. by destruct Hext.
Qed.

(** X8. The primary language of a successful scan is empty or a dot followed
    by characters without dot and separator, and the entry point is "main."
    followed by those characters (nothing when the primary language is
    empty): the extension of some file of the tree. *)
Theorem entry_point_is_main_dot_extension gp r root pl fs ep cc :
  valid_range r ->
  getRepoDetails gp r root = Returned (pl, fs, ep, cc) ->
  (pl = "" /\ ep = "main.")
  \/ exists t name,
      pl = String dot t /\ ep = "main." +:+ t
      /\ hasDot t = false /\ hasSeparator t = false
      /\ pl = Ext name /\ is_Some (tally root !! pl).
Proof.
  intros Hr Hrun.
  apply getRepoDetails_Returned in Hrun
    as (gi & st & _ & _ & _ & _ & _ & Hpl & ->).
  destruct (selectPrimary_map r (tally root) Hr) as [[Hsel _]|(_ & Hin & _)].
  - left. rewrite Hpl, Hsel. done.
  - rewrite <- Hpl in Hin.
    destruct (Walk_tally_keys root pl) as [name Hname]; [by eexists|].
    destruct (Ext_shape name) as [He|(t & He & Hd & Hs)].
    + left. rewrite Hname, He. done.
    + right. exists t, name. rewrite <- Hname in He.
      split; [done|]. split.
      * unfold entryPointOf. rewrite TrimPrefix_dot, He.
        by rewrite Ascii.eqb_refl.
      * repeat split; try done; by eexists.
Qed.

Lemma entry_point_is_main_dot_extension_witness :
  (".go" = "" /\ "main.go" = "main.")
  \/ exists t name,
      ".go" = String dot t /\ "main.go" = "main." +:+ t
      /\ hasDot t = false /\ hasSeparator t = false
      /\ ".go" = Ext name /\ is_Some (tally countsRepo !! ".go").
Proof.
  apply (entry_point_is_main_dot_extension plainPattern forwards countsRepo
           ".go" countsFiles "main.go" countsCode).
  - intros l; reflexivity.
  - vm_compute; reflexivity.
Defined.

(** ** Reading the lines of the ignore-spec file *)

Lemma rawLines_line (line rest : string) :
  hasLF line = false ->
  rawLines (line +:+ String LF rest) = line :: rawLines rest.
Proof.
  induction line as [|c line IH]; intros H.
  - rewrite append_nil_l. done.
  - simpl in H. apply orb_false_iff in H as [Hc Hl].
    rewrite append_cons. simpl. rewrite Hc, (IH Hl). done.
Qed.

Lemma rawLines_last (line : string) :
  hasLF line = false -> line <> "" -> rawLines line = [line].
Proof.
  induction line as [|c line IH]; intros H Hne; [done|].
  simpl in H. apply orb_false_iff in H as [Hc Hl]. simpl. rewrite Hc.
  destruct line as [|d line]; [done|]. by rewrite (IH Hl).
Qed.

Lemma dropCR_plain (line : string) : endsInCR line = false -> dropCR line = line.
Proof.
  induction line as [|c line IH]; [done|]. simpl.
  destruct line as [|d line]; [by intros ->|].
  intros H. by rewrite (IH H).
Qed.

Lemma dropCR_CR (line : string) : dropCR (line +:+ String CR "") = line.
Proof.
  induction line as [|c line IH]; [done|].
  rewrite append_cons. simpl. rewrite IH.
  destruct line; by rewrite ?append_nil_l, ?append_cons.
Qed.

Lemma length_append (a b : string) :
  String.length (a +:+ b) = (String.length a + String.length b)%nat.
Proof.
  induction a as [|c a IH]; [done|]. rewrite append_cons. simpl. by rewrite IH.
Qed.

Lemma hasLF_append (a b : string) : hasLF (a +:+ b) = hasLF a || hasLF b.
Proof.
  induction a as [|c a IH]; [done|]. rewrite append_cons. simpl.
  rewrite IH. by destruct (Ascii.eqb c LF).
Qed.

Lemma unlines_cons terminator line lines :
  lines <> [] ->
  unlines terminator (line :: lines)
  = (line +:+ terminator) +:+ unlines terminator lines.
Proof. unfold unlines. destruct lines; [done|]. by intros _. Qed.

Lemma rawLines_unlines (terminator tail : string) (lines : list string) :
  Forall (fun line => hasLF line = false) lines ->
  hasLF terminator = false ->
  rawLines (String.concat ""
              (map (fun line => line +:+ terminator +:+ String LF "") lines)
            +:+ tail)
  = (map (fun line => line +:+ terminator) lines ++ rawLines tail)%list.
Proof.
  intros Hlines Ht. induction Hlines as [|line lines Hl _ IH]; [done|].
  assert (Hhead : forall rest,
             rawLines ((line +:+ terminator +:+ String LF "") +:+ rest)
             = (line +:+ terminator) :: rawLines rest).
  { intros rest. rewrite <- (rawLines_line (line +:+ terminator) rest).
    - by rewrite !append_assoc.
    - by rewrite hasLF_append, Hl, Ht. }
  destruct lines as [|line' lines].
  - simpl map. simpl String.concat. apply Hhead.
  - change (String.concat "" (map _ (line :: line' :: lines)))
      with ((line +:+ terminator +:+ String LF "")
            +:+ String.concat ""
                  (map (fun line => line +:+ terminator +:+ String LF "")
                     (line' :: lines))).
    rewrite append_assoc, Hhead, IH. done.
Qed.

Lemma scanLines_Ok (data : string) (lines : list string) :
  Forall (fun raw => Z.of_nat (String.length raw) < MaxScanTokenSize)
    (rawLines data) ->
  map dropCR (rawLines data) = lines ->
  scanLines data = Ok lines.
Proof.
  intros Hlen <-. unfold scanLines.
  rewrite (proj2 (forallb_forall _ _)); [done|].
  intros raw Hraw. rewrite Forall_forall in Hlen.
  apply Z.ltb_lt, Hlen. by apply list_elem_of_In.
Qed.

Lemma scanLines_unlines_LF (lines : list string) (final : string) :
  Forall plainLine lines ->
  (final = "" \/ plainLine final) ->
  scanLines (unlines (String LF "") lines +:+ final)
  = Ok (lines ++ (if decide (final = "") then [] else [final]))%list.
Proof.
  intros Hlines Hfinal.
  assert (HLF : Forall (fun line => hasLF line = false) lines)
    by (eapply Forall_impl; [exact Hlines|by intros l (? & _)]).
  pose proof (rawLines_unlines "" final lines HLF eq_refl) as Hraw.
  assert (Heq : unlines (String LF "") lines
                = String.concat ""
                    (map (fun line => line +:+ "" +:+ String LF "") lines)).
  { reflexivity. }
  rewrite Heq.
  assert (Hmap : map (fun line => line +:+ "") lines = lines).
  { rewrite <- (map_id lines) at 2. apply map_ext. intros l.
    apply append_nil_r. }
  rewrite Hmap in Hraw.
  assert (Htail : rawLines final = if decide (final = "") then [] else [final]).
  { case_decide as Hf; [by subst|]. destruct Hfinal as [?|(H1 & _)]; [done|].
    by apply rawLines_last. }
  apply scanLines_Ok; rewrite Hraw, Htail.
  - apply Forall_app. split.
    + eapply Forall_impl; [exact Hlines|by intros l (_ & _ & ?)].
    + case_decide; [constructor|].
      destruct Hfinal as [?|(_ & _ & H3)]; [done|]. by repeat constructor.
  - rewrite map_app. f_equal.
    + rewrite <- (map_id lines) at 2. apply map_ext_Forall.
      eapply Forall_impl; [exact Hlines|].
      intros l (_ & H2 & _). by apply dropCR_plain.
    + case_decide; [done|]. simpl. f_equal.
      destruct Hfinal as [?|(_ & H2 & _)]; [done|]. by apply dropCR_plain.
Qed.

(** X9. The scanner gives back the lines of a text file: when each line has
    no line feed and fits the buffer, a file of lines that end in a line feed
    is read as these lines (none ending in a carriage return), a file of
    lines that end in carriage return and line feed as these lines without
    the carriage returns, and a last line without line feed is read as
    well. *)
Theorem scanLines_reads_the_lines (lines : list string) (final : string) :
  Forall plainLine lines ->
  (final = "" \/ plainLine final) ->
  scanLines (unlines (String LF "") lines +:+ final)
  = Ok (lines ++ (if decide (final = "") then [] else [final]))%list
  /\ (Forall (fun line => Z.of_nat (String.length line) + 1
                          < MaxScanTokenSize) lines ->
      scanLines (unlines (String CR (String LF "")) lines) = Ok lines).
Proof.
  intros Hlines Hfinal.
  split; [by apply scanLines_unlines_LF|].
  assert (HLF : Forall (fun line => hasLF line = false) lines)
    by (eapply Forall_impl; [exact Hlines|by intros l (? & _)]).
  intros Hlen.
  pose proof (rawLines_unlines (String CR "") "" lines HLF eq_refl) as Hraw.
  assert (Heq : unlines (String CR (String LF "")) lines
                = String.concat ""
                    (map (fun line => line +:+ String CR "" +:+ String LF "")
                       lines) +:+ "").
  { by rewrite append_nil_r. }
  rewrite Heq. apply scanLines_Ok; rewrite Hraw; simpl rawLines;
    rewrite app_nil_r.
  - apply Forall_map. eapply Forall_impl; [exact Hlen|].
    intros l Hl. simpl. rewrite length_append. simpl.
    unfold MaxScanTokenSize in *. lia.
  - rewrite map_map. rewrite <- (map_id lines) at 2. apply map_ext.
    intros l. apply dropCR_CR.
Qed.

Lemma scanLines_reads_the_lines_witness :
  scanLines (unlines (String LF "") ["node_modules"; "*.log"] +:+ "dist")
  = Ok ["node_modules"; "*.log"; "dist"].
Proof.
  apply (proj1 (scanLines_reads_the_lines ["node_modules"; "*.log"] "dist"
                  ltac:(repeat constructor)
                  ltac:(right; repeat constructor))).
Defined.

Lemma scanLines_too_long (lines : list string) (long rest : string) :
  Forall (fun line => hasLF line = false) lines ->
  hasLF long = false ->
  MaxScanTokenSize <= Z.of_nat (String.length long) ->
  (rest = "" \/ exists rest', rest = String LF rest') ->
  scanLines (unlines (String LF "") lines +:+ long +:+ rest) = Err ErrTooLong.
Proof.
  intros Hlines Hlong Hlen Hrest.
  pose proof (rawLines_unlines "" (long +:+ rest) lines Hlines eq_refl) as Hraw.
  change (String.concat "" (map (fun line => line +:+ "" +:+ String LF "") lines))
    with (unlines (String LF "") lines) in Hraw.
  assert (Hin : In long (rawLines (unlines (String LF "") lines
                                   +:+ long +:+ rest))).
  { rewrite Hraw. apply in_or_app. right.
    destruct Hrest as [->|[rest' ->]].
    - rewrite append_nil_r, rawLines_last; [by left|done|].
      intros ->. unfold MaxScanTokenSize in Hlen. simpl in Hlen. lia.
    - rewrite rawLines_line by done. by left. }
  unfold scanLines.
  destruct (forallb _ _) eqn:Hall; [|done].
  rewrite forallb_forall in Hall. specialize (Hall long Hin).
  apply Z.ltb_lt in Hall. lia.
Qed.

(** X10. readGitignore compiles the rule set from the lines of the
    ignore-spec file, in their order, when the lines fit the buffer of the
    scanner; when one line is as long as the buffer or longer, it returns
    the error of the scanner and the scan fails with it. *)
Theorem readGitignore_compiles_the_lines gp r name readdir entries fname
    (lines : list string) :
  Forall plainLine lines ->
  (lookupEntry ".gitignore" entries
   = Some (File fname (Ok (unlines (String LF "") lines))) ->
   readGitignore gp (Dir name readdir entries)
   = Ok (Some (CompileIgnoreLines gp lines)))
  /\ (forall long rest,
         lookupEntry ".gitignore" entries
         = Some (File fname
                   (Ok (unlines (String LF "") lines +:+ long +:+ rest))) ->
         hasLF long = false ->
         MaxScanTokenSize <= Z.of_nat (String.length long) ->
         (rest = "" \/ exists rest', rest = String LF rest') ->
         getRepoDetails gp r (Dir name readdir entries) = Failed ErrTooLong).
Proof.
  intros Hlines. split.
  - intros Hl. simpl. rewrite Hl.
    pose proof (scanLines_unlines_LF lines "" Hlines (or_introl eq_refl))
      as Hscan.
    rewrite append_nil_r, app_nil_r in Hscan. by rewrite Hscan.
  - intros long rest Hl Hlong Hlen Hrest.
    apply getRepoDetails_Failed_gitignore. simpl. rewrite Hl.
    rewrite scanLines_too_long; try done.
    eapply Forall_impl; [exact Hlines|by intros l (? & _)].
Qed.

Lemma readGitignore_compiles_the_lines_witness :
  readGitignore plainPattern
    (repoWithRules (unlines (String LF "") ["sub"; "dist"]))
  = Ok (Some (CompileIgnoreLines plainPattern ["sub"; "dist"]))
  /\ getRepoDetails plainPattern forwards
       (repoWithRules (unlines (String LF "") ["sub"; "dist"] +:+ longLine
                       +:+ ""))
     = Failed ErrTooLong.
Proof.
  split.
  - apply (proj1 (readGitignore_compiles_the_lines plainPattern forwards
                    "repo" None _ ".gitignore" ["sub"; "dist"]
                    ltac:(repeat constructor))).
    reflexivity.
  - apply (proj2 (readGitignore_compiles_the_lines plainPattern forwards
                    "repo" None _ ".gitignore" ["sub"; "dist"]
                    ltac:(repeat constructor)) longLine "").
    + reflexivity.
    + vm_compute; reflexivity.
    + vm_compute. discriminate.
    + by left.
Defined.

(** ** The rule set *)

Lemma MatchesPath_fold_no_match (ps : list IgnorePattern) (f : string) :
  Forall (fun p => Pattern p f = false) ps ->
  forall start,
    fold_left
      (fun (matchesPath : bool) (ip : IgnorePattern) =>
         if Pattern ip f then
           if negb (Negate ip) then true
           else if matchesPath then false
           else matchesPath
         else matchesPath) ps start = start.
Proof.
  induction 1 as [|p ps Hp _ IH]; intros start; [done|].
  simpl. rewrite Hp. apply IH.
Qed.

(** X11. The last pattern of the rule set that matches a path decides: the
    path is ignored when that pattern is not negated, kept when it is; a
    path that no pattern matches is not ignored. *)
Theorem MatchesPath_last_match_decides (ps : list IgnorePattern)
    (ip : IgnorePattern) (f : string) :
  MatchesPath {| patterns := ps ++ [ip] |} f
  = (if Pattern ip f then negb (Negate ip)
     else MatchesPath {| patterns := ps |} f)
  /\ (forall qs,
         Forall (fun p => Pattern p f = false) qs ->
         MatchesPath {| patterns := ps ++ qs |} f
         = MatchesPath {| patterns := ps |} f).
Proof.
  split.
  - unfold MatchesPath. simpl. rewrite fold_left_app. simpl.
    destruct (Pattern ip f); [|done].
    destruct (Negate ip); simpl; [|done].
    by destruct (fold_left _ ps false).
  - intros qs Hqs. unfold MatchesPath. simpl. rewrite fold_left_app.
    by apply MatchesPath_fold_no_match.
Qed.

(** ** The name of the output directory *)

Lemma ReplaceAll_append (a b : string) old new :
  ReplaceAll (a +:+ b) old new
  = ReplaceAll a old new +:+ ReplaceAll b old new.
Proof.
  induction a as [|c a IH]; [done|]. rewrite append_cons. simpl.
  rewrite IH. destruct (Ascii.eqb c old); [|done]. by rewrite append_assoc.
Qed.

Lemma safeFileName_cons (c : ascii) (s : string) :
  safeFileName (String c s)
  = String (if Ascii.eqb c slash || Ascii.eqb c backslash
            then "_"%char else c) (safeFileName s).
Proof.
  unfold safeFileName. simpl.
  destruct (Ascii.eqb_spec c slash) as [->|Hs]; [done|].
  simpl. by destruct (Ascii.eqb c backslash).
Qed.

(** X12. safeFileName keeps the length of the path and every character
    other than "/" and "\", which it turns into "_": its result holds no
    separator, a path without separators is returned as it is, and applying
    it twice changes nothing more. *)
Theorem safeFileName_replaces_separators (path : string) :
  String.length (safeFileName path) = String.length path
  /\ hasSeparator (safeFileName path) = false
  /\ hasBackslash (safeFileName path) = false
  /\ (hasSeparator path = false -> hasBackslash path = false ->
      safeFileName path = path)
  /\ safeFileName (safeFileName path) = safeFileName path.
Proof.
  assert (H0 : forall p, String.length (safeFileName p) = String.length p).
  { induction p as [|c p IH]; [done|].
    rewrite safeFileName_cons. simpl. by rewrite IH. }
  assert (H1 : forall p, hasSeparator (safeFileName p) = false
                         /\ hasBackslash (safeFileName p) = false).
  { induction p as [|c p [IH1 IH2]]; [done|].
    rewrite safeFileName_cons. simpl. rewrite IH1, IH2.
    destruct (Ascii.eqb_spec c slash) as [->|Hs]; [done|].
    destruct (Ascii.eqb_spec c backslash) as [->|Hb]; [done|].
    simpl. apply Ascii.eqb_neq in Hs, Hb. by rewrite Hs, Hb. }
  assert (H2 : forall p, hasSeparator p = false -> hasBackslash p = false ->
                         safeFileName p = p).
  { induction p as [|c p IH]; [done|]. simpl. intros Hs Hb.
    apply orb_false_iff in Hs as [Hs1 Hs2].
    apply orb_false_iff in Hb as [Hb1 Hb2].
    by rewrite safeFileName_cons, Hs1, Hb1, IH. }
  split; [apply H0|].
  split; [apply H1|split; [apply H1|split; [apply H2|]]].
  apply H2; apply H1.
Qed.

(** X13. safeFileName maps the parts of a path one by one, and "/", "\" and
    "_" alike to "_": two directory paths that differ only in these
    characters get the same output directory name. *)
Theorem safeFileName_merges_separators (a b : string) :
  safeFileName (a +:+ b) = safeFileName a +:+ safeFileName b
  /\ safeFileName (a +:+ "/" +:+ b) = safeFileName a +:+ "_" +:+ safeFileName b
  /\ safeFileName (a +:+ String backslash b)
     = safeFileName a +:+ "_" +:+ safeFileName b
  /\ safeFileName (a +:+ "_" +:+ b) = safeFileName a +:+ "_" +:+ safeFileName b.
Proof.
  assert (H : forall x y, safeFileName (x +:+ y)
                          = safeFileName x +:+ safeFileName y).
  { intros x y. unfold safeFileName. by rewrite !ReplaceAll_append. }
  split; [apply H|].
  split; [by rewrite !H|]. split; [by rewrite !H|by rewrite !H].
Qed.

(** * Properties of main *)

Lemma readWritten_single env created0 printed0 path data :
  readWritten env
    {| created := created0; written := [(path, data)]; printed := printed0 |}
    path
  = match readBack env path with
    | Some e => Err e
    | None => Ok data
    end.
Proof.
  unfold readWritten. simpl. destruct (readBack env path); [done|].
  by rewrite String.eqb_refl.
Qed.

(** The branches of [main], one at a time. *)
Ltac main_step :=
  match goal with
  | |- context [match dotenv ?env with _ => _ end] =>
      destruct (dotenv env) eqn:?
  | |- context [if Nat.ltb ?a ?b then _ else _] =>
      destruct (Nat.ltb a b) eqn:?
  | |- context [match mkdirAll ?env ?p with _ => _ end] =>
      destruct (mkdirAll env p) eqn:?
  | |- context [match getRepoDetails ?gp ?r ?t with _ => _ end] =>
      destruct (getRepoDetails gp r t) as [[[[? ?] ?] ?]| |] eqn:?
  | |- context [match callOpenAI ?c ?p with _ => _ end] =>
      destruct (callOpenAI c p) eqn:?
  | |- context [match writeFile ?env ?p with _ => _ end] =>
      destruct (writeFile env p) eqn:?
  | |- context [match readBack ?env ?p with _ => _ end] =>
      destruct (readBack env p) eqn:?
  end.

Ltac main_cases :=
  unfold main; repeat (first [rewrite readWritten_single | main_step]);
  cbn [fst snd created written printed].


(** X15. When main returns, the JSON artifact is the indented encoding of
    the scan's inventory and file contents, of the base name of the
    directory path and of the first choice the service gave for the
    generated prompt; the second prompt sent to the service embeds that very
    encoding, file contents included; the Markdown artifact is the first
    choice of its answer; and the four lines printed name the generated
    prompt and both artifact paths. *)
Theorem main_success_contents gp langsRange codeRange quote (env : Env) :
  let dirPath := nth 1 (Args env) "" in
  let w := fst (main gp langsRange codeRange quote env) in
  snd (main gp langsRange codeRange quote env) = ExitOk ->
  exists primaryLang fileStructure entryPoint currentCode finalPrompt
         projectDescription,
    let initialPrompt := generatePrompt primaryLang fileStructure entryPoint in
    let json :=
      MarshalIndent quote codeRange
        {| Context_ := {| ProjectName := BaseName dirPath;
                          ProjectDescription := finalPrompt;
                          FileStructure := fileStructure |};
           CurrentCode := currentCode |} in
    getRepoDetails gp langsRange (treeAt env dirPath)
    = Returned (primaryLang, fileStructure, entryPoint, currentCode)
    /\ callOpenAI (complete env) initialPrompt = Answer finalPrompt
    /\ callOpenAI (complete env) (newPromptOf json) = Answer projectDescription
    /\ written w = [(jsonFilePathOf dirPath, json);
                    (mdFilePathOf dirPath, projectDescription)]
    /\ printed w = ["Initial Prompt:"; initialPrompt;
                    "Project context written to " +:+ jsonFilePathOf dirPath;
                    "Project description written to " +:+ mdFilePathOf dirPath].
Proof.
  intros dirPath w. subst w dirPath. main_cases; try discriminate.
  intros _. do 6 eexists. cbn zeta.
  split; [reflexivity|]. split; [eassumption|]. split; [eassumption|].
  split; reflexivity.
Qed.

Lemma main_success_contents_witness :
  exists primaryLang fileStructure entryPoint currentCode finalPrompt
         projectDescription,
    getRepoDetails plainPattern forwards (treeAt sampleEnv "/home/me/repo")
    = Returned (primaryLang, fileStructure, entryPoint, currentCode)
    /\ callOpenAI (complete sampleEnv)
         (generatePrompt primaryLang fileStructure entryPoint)
       = Answer finalPrompt
    /\ written (fst (main plainPattern forwards forwards plainQuote sampleEnv))
       = [(jsonFilePathOf "/home/me/repo",
           MarshalIndent plainQuote forwards
             {| Context_ := {| ProjectName := BaseName "/home/me/repo";
                               ProjectDescription := finalPrompt;
                               FileStructure := fileStructure |};
                CurrentCode := currentCode |});
          (mdFilePathOf "/home/me/repo", projectDescription)].
Proof.
  destruct (main_success_contents plainPattern forwards forwards plainQuote
              sampleEnv) as (pl & fs & ep & code & fp & pd & H);
    [vm_compute; reflexivity|].
  cbn zeta in H. destruct H as (H1 & H2 & _ & H4 & _).
  exists pl, fs, ep, code, fp, pd. split; [exact H1|]. split; [exact H2|].
  exact H4.
Defined.

(** X16. The process panics only where the scan panics or the service
    answers a prompt with an empty list of choices. *)
Theorem main_panics_only_on_scan_or_no_choice gp langsRange codeRange quote
    (env : Env) :
  snd (main gp langsRange codeRange quote env) = Panic ->
  getRepoDetails gp langsRange (treeAt env (nth 1 (Args env) "")) = Panicked
  \/ exists prompt, complete env prompt = inl [].
Proof.
  main_cases; try discriminate; intros _; eauto.
  all: right; eexists.
  all: match goal with
       | H : callOpenAI _ ?p = IndexPanic |- _ =>
           unfold callOpenAI in H;
           destruct (complete env p) as [[|? ?]|] eqn:E; try discriminate;
           exact E
       end.
Qed.

Lemma main_panics_only_on_scan_or_no_choice_witness :
  getRepoDetails plainPattern forwards
    (treeAt muteEnv (nth 1 (Args muteEnv) "")) = Panicked
  \/ exists prompt, complete muteEnv prompt = inl [].
Proof.
  apply (main_panics_only_on_scan_or_no_choice plainPattern forwards forwards
           plainQuote muteEnv).
  vm_compute. reflexivity.
Defined.

(** ** Paths: Clean, Join, Base *)

Lemma splitPath_nonempty (p : string) : splitPath p <> [].
Proof.
  induction p as [|c p IH]; [done|]. simpl.
  destruct (Ascii.eqb c slash); [done|]. by destruct (splitPath p).
Qed.

Lemma splitPath_noSep (s : string) :
  hasSeparator s = false -> splitPath s = [s].
Proof.
  induction s as [|c s IH]; [done|]. simpl. intros H.
  apply orb_false_elim in H as [-> H]. by rewrite IH.
Qed.

Lemma splitPath_app_slash (a b : string) :
  splitPath (a +:+ "/" +:+ b) = (splitPath a ++ splitPath b)%list.
Proof.
  induction a as [|c a IH]; [done|]. rewrite append_cons. simpl.
  destruct (Ascii.eqb c slash); rewrite IH; [done|].
  pose proof (splitPath_nonempty a). by destruct (splitPath a).
Qed.

Lemma plainElement_spec (e : string) :
  plainElement e = true ->
  hasSeparator e = false /\ String.eqb e "" = false
  /\ String.eqb e "." = false /\ String.eqb e ".." = false.
Proof.
  unfold plainElement. intros H.
  repeat (apply andb_prop in H as [H ?]).
  repeat split; by apply negb_true_iff.
Qed.

Lemma plainElement_head (e : string) :
  plainElement e = true ->
  exists c rest, e = String c rest /\ Ascii.eqb c slash = false.
Proof.
  intros H. apply plainElement_spec in H as (Hs & He & _).
  destruct e as [|c rest]; [done|]. simpl in Hs.
  apply orb_false_elim in Hs as [Hc _]. eauto.
Qed.

Lemma splitPath_concat (els : list string) :
  els <> [] -> Forall (fun e => hasSeparator e = false) els ->
  splitPath (String.concat "/" els) = els.
Proof.
  induction els as [|e [|e' l] IH]; [done| |]; intros _ H.
  - simpl. apply splitPath_noSep. by inversion H.
  - rewrite concat_cons2, splitPath_app_slash.
    inversion H as [|? ? He Hl]; subst.
    rewrite (splitPath_noSep e He), IH; done.
Qed.

Lemma cleanStep_plain (rooted : bool) (out : list string) (e : string) :
  plainElement e = true -> cleanStep rooted out e = e :: out.
Proof.
  intros H. apply plainElement_spec in H as (_ & H1 & H2 & H3).
  unfold cleanStep. by rewrite H1, H2, H3.
Qed.

Lemma fold_cleanStep_plain (rooted : bool) (els out : list string) :
  Forall (fun e => plainElement e = true) els ->
  fold_left (cleanStep rooted) els out = (rev els ++ out)%list.
Proof.
  revert out. induction els as [|e l IH]; intros out H; [done|].
  inversion H as [|? ? He Hl]; subst. simpl.
  rewrite (cleanStep_plain _ _ _ He), (IH _ Hl).
  by rewrite <- app_assoc.
Qed.

Lemma prefix_slash (c : ascii) (rest : string) :
  Ascii.eqb c slash = false -> String.prefix "/" (String c rest) = false.
Proof.
  intros H. cbn [String.prefix].
  destruct (ascii_dec "/" c) as [<-|_]; [by vm_compute in H|done].
Qed.

(** [filepath.Clean] leaves a relative path of plain elements as it is. *)
Lemma Clean_plain (els : list string) :
  els <> [] -> Forall (fun e => plainElement e = true) els ->
  Clean (String.concat "/" els) = String.concat "/" els.
Proof.
  intros Hne H.
  assert (Forall (fun e => hasSeparator e = false) els) as Hs.
  { eapply Forall_impl; [exact H|]. intros e He.
    by apply plainElement_spec in He as (? & _). }
  assert (exists c rest, String.concat "/" els = String c rest
                         /\ Ascii.eqb c slash = false) as (c & rest & Hc & Hsl).
  { destruct els as [|e l]; [done|]. inversion H as [|? ? He _]; subst.
    apply plainElement_head in He as (c & r & -> & Hc).
    destruct l as [|e' l]; [by exists c, r|].
    rewrite concat_cons2, append_cons. eauto. }
  unfold Clean. rewrite (splitPath_concat _ Hne Hs), (fold_cleanStep_plain _ _ _ H).
  rewrite app_nil_r, rev_involutive, !Hc.
  by rewrite (prefix_slash c rest Hsl).
Qed.

Lemma safeFileName_noSep (p : string) :
  hasSeparator (safeFileName p) = false.
Proof.
  induction p as [|c p IH]; [done|]. rewrite safeFileName_cons. simpl.
  rewrite IH, orb_false_r.
  destruct (Ascii.eqb c slash) eqn:E; simpl; [done|].
  by destruct (Ascii.eqb c backslash).
Qed.

(** X17. Where the artifacts go. The output directory is data/ followed by
    the directory path with its separators replaced, and the artifacts lie
    directly in it. Three directory paths fall out of this: for the empty
    path and for "." the output directory is data itself, and for ".." it is
    the working directory, so that the artifacts are written beside the
    data directory, not in it. *)
Theorem artifacts_lie_in_the_output_directory (dirPath : string) :
  let s := safeFileName dirPath in
  let inDir := if String.eqb s ".." then "" else outputDirOf dirPath +:+ "/" in
  outputDirOf dirPath
  = (if String.eqb s "" || String.eqb s "." then "data"
     else if String.eqb s ".." then "."
     else "data/" +:+ s)
  /\ jsonFilePathOf dirPath = inDir +:+ "project_context.json"
  /\ mdFilePathOf dirPath = inDir +:+ "project_description.md".
Proof.
  intros s inDir. subst inDir.
  unfold jsonFilePathOf, mdFilePathOf, outputDirOf. fold s.
  pose proof (safeFileName_noSep dirPath) as Hs. fold s in Hs.
  clearbody s.
  destruct (String.eqb s "") eqn:E1.
  { apply String.eqb_eq in E1 as ->. by vm_compute. }
  destruct (String.eqb s ".") eqn:E2.
  { apply String.eqb_eq in E2 as ->. by vm_compute. }
  destruct (String.eqb s "..") eqn:E3.
  { apply String.eqb_eq in E3 as ->. by vm_compute. }
  assert (plainElement s = true) as Hp.
  { unfold plainElement. by rewrite Hs, E1, E2, E3. }
  assert (Join ["data"; s] = "data/" +:+ s) as ->.
  { change (Join ["data"; s]) with (Clean (String.concat "/" ["data"; s])).
    rewrite Clean_plain; [done|done|]. by repeat constructor. }
  simpl orb. cbv iota.
  split; [done|].
  split.
  - change (Join ["data/" +:+ s; "project_context.json"])
      with (Clean (String.concat "/" ["data"; s; "project_context.json"])).
    rewrite Clean_plain; [|done|by repeat constructor].
    rewrite !concat_cons2. simpl String.concat.
    by rewrite !append_assoc.
  - change (Join ["data/" +:+ s; "project_description.md"])
      with (Clean (String.concat "/" ["data"; s; "project_description.md"])).
    rewrite Clean_plain; [|done|by repeat constructor].
    rewrite !concat_cons2. simpl String.concat.
    by rewrite !append_assoc.
Qed.

Lemma append_slash_nonempty (a b : string) :
  String.eqb (a +:+ "/" +:+ b) "" = false.
Proof. by destruct a. Qed.

Lemma filter_nonempty_single (n : string) :
  n <> "" -> filter (fun e : string => e <> "") [n] = [n].
Proof. intros H. by rewrite filter_cons_True. Qed.

(** X18. The project name is the last element of the directory path,
    whether or not the path ends in a separator. *)
Theorem BaseName_is_the_last_element (d n : string) :
  hasSeparator n = false -> n <> "" ->
  BaseName n = n
  /\ BaseName (d +:+ "/" +:+ n) = n
  /\ BaseName (d +:+ "/" +:+ n +:+ "/") = n.
Proof.
  intros Hs Hn. unfold BaseName. split; [|split].
  - apply String.eqb_neq in Hn as Hn'. rewrite Hn'.
    by rewrite (splitPath_noSep n Hs), (filter_nonempty_single n Hn).
  - rewrite append_slash_nonempty, splitPath_app_slash, (splitPath_noSep n Hs).
    rewrite filter_app, (filter_nonempty_single n Hn).
    destruct (filter _ (splitPath d)) as [|e es]; [done|].
    simpl app. apply last_last.
  - replace (d +:+ "/" +:+ n +:+ "/") with ((d +:+ "/" +:+ n) +:+ "/" +:+ "")
      by (by rewrite !append_assoc).
    rewrite append_slash_nonempty, !splitPath_app_slash, (splitPath_noSep n Hs).
    rewrite !filter_app, (filter_nonempty_single n Hn).
    simpl (splitPath ""). rewrite filter_cons_False by (intros H; by apply H).
    rewrite filter_nil, app_nil_r.
    destruct (filter _ (splitPath d)) as [|e es]; [done|].
    simpl app. apply last_last.
Qed.

Lemma BaseName_is_the_last_element_witness :
  BaseName "repo" = "repo"
  /\ BaseName ("/home/me" +:+ "/" +:+ "repo") = "repo"
  /\ BaseName ("/home/me" +:+ "/" +:+ "repo" +:+ "/") = "repo".
Proof.
  apply (BaseName_is_the_last_element "/home/me" "repo"); [reflexivity|].
  discriminate.
Defined.
